(** * E-Portfolio: the hero typing animation and the contact form

    A shallow embedding of the client-side script of the portfolio site
    ([src/app.js], the "minimal" script, and the fuller variant whose
    animation is at the end of the second script file), and the
    properties the specification states about them.  The theme switch,
    the mobile menu and the rate-limiting helpers of the two scripts
    follow, with properties read off their code.

    JavaScript values are modelled as follows.
    - A string is the list of its UTF-16 code units; [length], [charAt]
      and [substring] count code units, as in ECMAScript.
    - The counters [textIndex] and [charIndex] are integers ([Z]): they
      start at 0 and only ever change by [++] and [--], far below 2^53.
    - [null]/[undefined] is [None]; reading a property of it throws a
      [TypeError].
    - [setTimeout(f, d)] appends a pending timer to the world; the event
      loop later takes a pending timer and runs its callback. *)

From Stdlib Require Import ZArith Lia Ascii String.
From stdpp Require Import base tactics option list.

Local Open Scope Z_scope.

(** ** JavaScript strings *)

Definition code_unit := N.
Definition jsstring := list code_unit.

(** An ASCII literal of the source as a JavaScript string. *)
Definition lit (s : string) : jsstring :=
  map N_of_ascii (list_ascii_of_string s).

(** [s.length] *)
Definition len {A} (s : list A) : Z := Z.of_nat (length s).

(** [a[i]] for an array (or string) [a]: [undefined] out of range. *)
Definition index {A} (a : list A) (i : Z) : option A :=
  if 0 <=? i then a !! Z.to_nat i else None.

(** [s.charAt(i)]: the one-unit string at position [i], the empty string
    out of range. *)
Definition charAt (s : jsstring) (i : Z) : jsstring :=
  match index s i with
  | Some c => [c]
  | None => []
  end.

(** [s.substring(start, end)]: both arguments are clamped to
    [0 .. s.length] and swapped when [start > end]. *)
Definition substring (s : jsstring) (start end_ : Z) : jsstring :=
  let a := Z.min (Z.max start 0) (len s) in
  let b := Z.min (Z.max end_ 0) (len s) in
  let from := Z.min a b in
  let to := Z.max a b in
  take (Z.to_nat (to - from)) (drop (Z.to_nat from) s).

(** ** Completions and the state-and-exception monad *)

Inductive Error := TypeError.

Inductive Completion (A : Type) :=
| Normal (a : A)
| Throw (e : Error).
Arguments Normal {A} a.
Arguments Throw {A} e.

Definition M (S A : Type) : Type := S -> Completion (A * S).

Definition ret {S A} (a : A) : M S A := fun s => Normal (a, s).

Definition bind {S A B} (m : M S A) (k : A -> M S B) : M S B :=
  fun s =>
    match m s with
    | Normal (a, s') => k a s'
    | Throw e => Throw e
    end.

Definition throw {S A} (e : Error) : M S A := fun _ => Throw e.

Definition gets {S A} (f : S -> A) : M S A := fun s => Normal (f s, s).

Definition modify {S} (f : S -> S) : M S unit := fun s => Normal (tt, f s).

(** Property access [o.p] on a value that may be [null]/[undefined]. *)
Definition member {S A} (o : option A) : M S A :=
  match o with
  | Some a => ret a
  | None => throw TypeError
  end.

(** The world a statement leaves behind. *)
Definition exec {S A} (m : M S A) (s : S) : Completion S :=
  match m s with
  | Normal (_, s') => Normal s'
  | Throw e => Throw e
  end.

Notation "'let!' x ':=' m 'in' k" := (bind m (fun x => k))
  (at level 10, x name, m at level 100, k at level 200).
Notation "m '>>' k" := (bind m (fun _ => k))
  (at level 90, right associativity).

(** ** Timers *)

(** The two functions handed to [setTimeout] by the animation. *)
Inductive Callback := CbType | CbErase.

Record Timer := { callback : Callback; delay : Z }.

Definition timer (f : Callback) (d : Z) : Timer :=
  {| callback := f; delay := d |}.

Definition typingDelay : Z := 150.
Definition erasingDelay : Z := 100.
Definition newTextDelay : Z := 2000.

(** The playlist of the site. *)
Definition site_texts : list jsstring :=
  [ lit "Hi, I'm Jackson Kovarik"; lit "Welcome To My Portfolio" ].

(** ** The animation of [src/app.js] *)

Module AppJs.

(** The entries of [domCache] that the animation looks at.  An element
    is represented by its [textContent]; [None] is the [null] that
    [getElementById] / [querySelector] returned. *)
Record DomCache := {
  typedTextSpan : option jsstring;
  cursorSpan : option jsstring
}.

Record World := {
  domCache : DomCache;
  textIndex : Z;
  charIndex : Z;
  timers : list Timer
}.

Definition set_textIndex (v : Z) (w : World) : World :=
  {| domCache := domCache w; textIndex := v;
     charIndex := charIndex w; timers := timers w |}.

Definition set_charIndex (v : Z) (w : World) : World :=
  {| domCache := domCache w; textIndex := textIndex w;
     charIndex := v; timers := timers w |}.

Definition set_timers (v : list Timer) (w : World) : World :=
  {| domCache := domCache w; textIndex := textIndex w;
     charIndex := charIndex w; timers := v |}.

Definition set_typedTextSpan (v : option jsstring) (w : World) : World :=
  {| domCache := {| typedTextSpan := v;
                    cursorSpan := cursorSpan (domCache w) |};
     textIndex := textIndex w; charIndex := charIndex w;
     timers := timers w |}.

(** [domCache.typedTextSpan.textContent] *)
Definition get_textContent : M World jsstring :=
  let! el := gets (fun w => typedTextSpan (domCache w)) in member el.

(** [domCache.typedTextSpan.textContent = v] *)
Definition put_textContent (v : jsstring) : M World unit :=
  let! el := gets (fun w => typedTextSpan (domCache w)) in
  let! _ := member el in
  modify (set_typedTextSpan (Some v)).

Definition setTimeout (f : Callback) (d : Z) : M World unit :=
  modify (fun w => set_timers (timers w ++ [{| callback := f; delay := d |}]) w).

Section Animation.

Variable texts : list jsstring.

Definition type : M World unit :=
  let! ti := gets textIndex in
  let! ci := gets charIndex in
  let! t := member (index texts ti) in
  if ci <? len t then
    let! old := get_textContent in
    let! ti := gets textIndex in
    let! t := member (index texts ti) in
    let! ci := gets charIndex in
    put_textContent (old ++ charAt t ci) >>
    modify (fun w => set_charIndex (charIndex w + 1) w) >>
    setTimeout CbType typingDelay
  else
    setTimeout CbErase newTextDelay.

Definition erase : M World unit :=
  let! ci := gets charIndex in
  if 0 <? ci then
    let! ti := gets textIndex in
    let! t := member (index texts ti) in
    let! ci := gets charIndex in
    put_textContent (substring t 0 (ci - 1)) >>
    modify (fun w => set_charIndex (charIndex w - 1) w) >>
    setTimeout CbErase erasingDelay
  else
    modify (fun w => set_textIndex (textIndex w + 1) w) >>
    (let! ti := gets textIndex in
     if len texts <=? ti then modify (set_textIndex 0) else ret tt) >>
    setTimeout CbType (typingDelay + 1100).

(** The value [textIndex++; if (textIndex >= texts.length) textIndex = 0;]
    leaves in [textIndex]. *)
Definition next_textIndex (ti : Z) : Z :=
  if len texts <=? ti + 1 then 0 else ti + 1.

(** The state the script declares before anything runs. *)
Definition init (dc : DomCache) : World :=
  {| domCache := dc; textIndex := 0; charIndex := 0; timers := [] |}.

(** [if (domCache.typedTextSpan) { type(); }] *)
Definition start : M World unit :=
  let! el := gets (fun w => typedTextSpan (domCache w)) in
  match el with
  | Some _ => type
  | None => ret tt
  end.

Definition call (f : Callback) : M World unit :=
  match f with
  | CbType => type
  | CbErase => erase
  end.

(** One turn of the event loop: a pending timer is removed and its
    callback runs.  The animation never has two timers pending, so taking
    the oldest one is no restriction.  With no timer pending the loop is
    idle. *)
Definition fire (w : World) : Completion World :=
  match timers w with
  | [] => Normal w
  | tm :: rest => exec (call (callback tm)) (set_timers rest w)
  end.

Fixpoint run (n : nat) (w : World) : Completion World :=
  match n with
  | O => Normal w
  | S n' =>
      match fire w with
      | Normal w' => run n' w'
      | Throw e => Throw e
      end
  end.

(** The worlds the animation goes through: the one [start] leaves, and
    every one a later timer leaves. *)
Inductive Reachable (dc : DomCache) : World -> Prop :=
| reach_start w :
    exec start (init dc) = Normal w -> Reachable dc w
| reach_fire w w' :
    Reachable dc w -> fire w = Normal w' -> Reachable dc w'.

(** What the page shows. *)
Definition renderedText (w : World) : option jsstring :=
  typedTextSpan (domCache w).

(** [renderedText == Playlist[textIndex][0:charIndex]] *)
Definition rendered_prefix (w : World) : Prop :=
  exists t, index texts (textIndex w) = Some t /\
            renderedText w = Some (substring t 0 (charIndex w)).

(** [0 <= textIndex < len(Playlist)] and
    [0 <= charIndex <= len(Playlist[textIndex])] *)
Definition in_bounds (w : World) : Prop :=
  0 <= textIndex w < len texts /\
  exists t, index texts (textIndex w) = Some t /\
            0 <= charIndex w <= len t.

(** The data-model invariant of the animator state. *)
Definition invariant (w : World) : Prop :=
  in_bounds w /\ rendered_prefix w.

(** The world in which entry [ti] is displayed up to [ci] and the one
    timer [tm] is pending. *)
Definition displaying (cursor : option jsstring) (ti ci : Z) (t : jsstring)
  (tm : Timer) : World :=
  {| domCache := {| typedTextSpan := Some (substring t 0 ci);
                    cursorSpan := cursor |};
     textIndex := ti; charIndex := ci; timers := [tm] |}.

(** The pause before entry [ti] is typed: nothing displayed, [type]
    pending. *)
Definition before_entry (cursor : option jsstring) (ti : Z) : World :=
  displaying cursor ti 0 [] (timer CbType (typingDelay + 1100)).

(** The firings the entries of [l] take, one after the other. *)
Definition steps_of (l : list jsstring) : nat :=
  foldr (fun t n => (2 * length t + 2 + n)%nat) O l.

(** The number of timer firings one entry takes: one per code unit typed,
    the turn that starts the pause, one per code unit erased, and the
    turn that moves on to the next entry. *)
Definition cycle_steps (t : jsstring) : nat := (2 * length t + 2)%nat.

(** The firings of one pass over the whole playlist. *)
Definition period : nat := steps_of texts.


End Animation.

End AppJs.

(** ** The animation of the fuller script

    The same two functions, at the end of the second script file.  Here
    the sink is not an entry of a cache object: it is the constant
    [typedTextSpan], looked up once, next to the state variables. *)

Module Full.

Record World := {
  textIndex : Z;
  charIndex : Z;
  typedTextSpan : option jsstring;
  cursorSpan : option jsstring;
  timers : list Timer
}.

Definition set_textIndex (v : Z) (w : World) : World :=
  {| textIndex := v; charIndex := charIndex w;
     typedTextSpan := typedTextSpan w; cursorSpan := cursorSpan w;
     timers := timers w |}.

Definition set_charIndex (v : Z) (w : World) : World :=
  {| textIndex := textIndex w; charIndex := v;
     typedTextSpan := typedTextSpan w; cursorSpan := cursorSpan w;
     timers := timers w |}.

Definition set_timers (v : list Timer) (w : World) : World :=
  {| textIndex := textIndex w; charIndex := charIndex w;
     typedTextSpan := typedTextSpan w; cursorSpan := cursorSpan w;
     timers := v |}.

Definition set_typedTextSpan (v : option jsstring) (w : World) : World :=
  {| textIndex := textIndex w; charIndex := charIndex w;
     typedTextSpan := v; cursorSpan := cursorSpan w;
     timers := timers w |}.

(** [typedTextSpan.textContent] *)
Definition get_textContent : M World jsstring :=
  let! el := gets typedTextSpan in member el.

(** [typedTextSpan.textContent = v] *)
Definition put_textContent (v : jsstring) : M World unit :=
  let! el := gets typedTextSpan in
  let! _ := member el in
  modify (set_typedTextSpan (Some v)).

Definition setTimeout (f : Callback) (d : Z) : M World unit :=
  modify (fun w => set_timers (timers w ++ [{| callback := f; delay := d |}]) w).

Section Animation.

Variable texts : list jsstring.

Definition type : M World unit :=
  let! ti := gets textIndex in
  let! ci := gets charIndex in
  let! t := member (index texts ti) in
  if ci <? len t then
    let! old := get_textContent in
    let! ti := gets textIndex in
    let! t := member (index texts ti) in
    let! ci := gets charIndex in
    put_textContent (old ++ charAt t ci) >>
    modify (fun w => set_charIndex (charIndex w + 1) w) >>
    setTimeout CbType typingDelay
  else
    setTimeout CbErase newTextDelay.

Definition erase : M World unit :=
  let! ci := gets charIndex in
  if 0 <? ci then
    let! ti := gets textIndex in
    let! t := member (index texts ti) in
    let! ci := gets charIndex in
    put_textContent (substring t 0 (ci - 1)) >>
    modify (fun w => set_charIndex (charIndex w - 1) w) >>
    setTimeout CbErase erasingDelay
  else
    modify (fun w => set_textIndex (textIndex w + 1) w) >>
    (let! ti := gets textIndex in
     if len texts <=? ti then modify (set_textIndex 0) else ret tt) >>
    setTimeout CbType (typingDelay + 1100).

(** The state the script declares, around the sink found in the page. *)
Definition init (sink cursor : option jsstring) : World :=
  {| textIndex := 0; charIndex := 0; typedTextSpan := sink;
     cursorSpan := cursor; timers := [] |}.

(** [if (typedTextSpan) { type(); }] *)
Definition start : M World unit :=
  let! el := gets typedTextSpan in
  match el with
  | Some _ => type
  | None => ret tt
  end.

End Animation.

End Full.

(** ** What both scripts let an observer see *)

Record Observation := {
  obs_textIndex : Z;
  obs_charIndex : Z;
  obs_rendered : option jsstring;
  obs_timers : list Timer
}.

Definition observe_app (w : AppJs.World) : Observation :=
  {| obs_textIndex := AppJs.textIndex w;
     obs_charIndex := AppJs.charIndex w;
     obs_rendered := AppJs.typedTextSpan (AppJs.domCache w);
     obs_timers := AppJs.timers w |}.

Definition observe_full (w : Full.World) : Observation :=
  {| obs_textIndex := Full.textIndex w;
     obs_charIndex := Full.charIndex w;
     obs_rendered := Full.typedTextSpan w;
     obs_timers := Full.timers w |}.

Definition map_completion {A B} (f : A -> B) (c : Completion A)
  : Completion B :=
  match c with
  | Normal a => Normal (f a)
  | Throw e => Throw e
  end.

(** ** Regular expressions

    A pattern literal is represented by its syntax tree; [test] decides
    whether the whole subject belongs to the language of the pattern,
    which is what [pattern.test(s)] does for a pattern anchored with [^]
    and [$]. *)

Inductive Regex :=
| RNone
| REps
| RClass (p : code_unit -> bool)
| RSeq (r1 r2 : Regex)
| RAlt (r1 r2 : Regex)
| RStar (r : Regex).

Definition RPlus (r : Regex) : Regex := RSeq r (RStar r).

Fixpoint nullable (r : Regex) : bool :=
  match r with
  | RNone => false
  | REps => true
  | RClass _ => false
  | RSeq r1 r2 => nullable r1 && nullable r2
  | RAlt r1 r2 => nullable r1 || nullable r2
  | RStar _ => true
  end.

Fixpoint deriv (c : code_unit) (r : Regex) : Regex :=
  match r with
  | RNone => RNone
  | REps => RNone
  | RClass p => if p c then REps else RNone
  | RSeq r1 r2 =>
      if nullable r1
      then RAlt (RSeq (deriv c r1) r2) (deriv c r2)
      else RSeq (deriv c r1) r2
  | RAlt r1 r2 => RAlt (deriv c r1) (deriv c r2)
  | RStar r1 => RSeq (deriv c r1) (RStar r1)
  end.

Fixpoint test (r : Regex) (s : jsstring) : bool :=
  match s with
  | [] => nullable r
  | c :: s' => test (deriv c r) s'
  end.

(** The language of a pattern: the subjects it matches as a whole. *)
Inductive lang : Regex -> jsstring -> Prop :=
| lang_eps : lang REps []
| lang_class p c : p c = true -> lang (RClass p) [c]
| lang_seq r1 r2 s1 s2 :
    lang r1 s1 -> lang r2 s2 -> lang (RSeq r1 r2) (s1 ++ s2)
| lang_alt_l r1 r2 s : lang r1 s -> lang (RAlt r1 r2) s
| lang_alt_r r1 r2 s : lang r2 s -> lang (RAlt r1 r2) s
| lang_star_nil r : lang (RStar r) []
| lang_star_cons r s1 s2 :
    lang r s1 -> lang (RStar r) s2 -> lang (RStar r) (s1 ++ s2).

(** White space and line terminators: what [\s] matches and what
    [trim] strips. *)
Definition isWhiteSpace (c : code_unit) : bool :=
  ((9 <=? c) && (c <=? 13) || (c =? 32) || (c =? 160) || (c =? 5760)
   || (8192 <=? c) && (c <=? 8202) || (c =? 8232) || (c =? 8233)
   || (c =? 8239) || (c =? 8287) || (c =? 12288) || (c =? 65279))%N.

Fixpoint trimStart (s : jsstring) : jsstring :=
  match s with
  | [] => []
  | c :: s' => if isWhiteSpace c then trimStart s' else s
  end.

Definition trimEnd (s : jsstring) : jsstring :=
  reverse (trimStart (reverse s)).

Definition trim (s : jsstring) : jsstring := trimEnd (trimStart s).

(** ** The contact form of [src/app.js] *)

Module Form.

Definition at_sign : code_unit := 64%N.
Definition full_stop : code_unit := 46%N.

(** [[^\s@]] *)
Definition not_space_or_at (c : code_unit) : bool :=
  negb (isWhiteSpace c || (c =? at_sign)%N).

(** [/^[^\s@]+@[^\s@]+\.[^\s@]+$/] *)
Definition emailPattern : Regex :=
  RSeq (RPlus (RClass not_space_or_at))
    (RSeq (RClass (N.eqb at_sign))
       (RSeq (RPlus (RClass not_space_or_at))
          (RSeq (RClass (N.eqb full_stop))
             (RPlus (RClass not_space_or_at))))).

Record Rule := {
  minLength : option Z;
  pattern : option Regex;
  message : jsstring
}.

(** [this.validationRules], as the list of its own properties. *)
Definition validationRules : list (jsstring * Rule) :=
  [ (lit "name",
     {| minLength := Some 2; pattern := None;
        message := lit "Name must be at least 2 characters long" |});
    (lit "email",
     {| minLength := None; pattern := Some emailPattern;
        message := lit "Please enter a valid email address" |});
    (lit "subject",
     {| minLength := Some 5; pattern := None;
        message := lit "Subject must be at least 5 characters long" |});
    (lit "message",
     {| minLength := Some 10; pattern := None;
        message := lit "Message must be at least 10 characters long" |}) ].

Fixpoint lookup_rule (rules : list (jsstring * Rule)) (k : jsstring)
  : option Rule :=
  match rules with
  | [] => None
  | (k', r) :: rest => if decide (k' = k) then Some r else lookup_rule rest k
  end.

(** The names every object literal inherits from [Object.prototype].
    What [validationRules] yields under such a name is an object, hence
    truthy, that has neither [minLength] nor [pattern]. *)
Definition inherited : list jsstring :=
  [ lit "constructor"; lit "__proto__"; lit "hasOwnProperty";
    lit "isPrototypeOf"; lit "propertyIsEnumerable"; lit "toLocaleString";
    lit "toString"; lit "valueOf"; lit "__defineGetter__";
    lit "__defineSetter__"; lit "__lookupGetter__"; lit "__lookupSetter__" ].

Definition no_rule : Rule :=
  {| minLength := None; pattern := None; message := [] |}.

(** [this.validationRules[fieldName]] *)
Definition rule_for (k : jsstring) : option Rule :=
  match lookup_rule validationRules k with
  | Some r => Some r
  | None => if decide (k ∈ inherited) then Some no_rule else None
  end.

(** An [input] or [textarea] of the form: its [name], its [value], the
    value [form.reset()] restores, and the inline message shown beside it
    ([None] when the control is not marked as an error).  The message
    element is looked up in the control's parent: every control is taken
    to sit in a container of its own. *)
Record Field := {
  name : jsstring;
  value : jsstring;
  defaultValue : jsstring;
  fieldError : option jsstring
}.

Definition set_fieldError (e : option jsstring) (f : Field) : Field :=
  {| name := name f; value := value f; defaultValue := defaultValue f;
     fieldError := e |}.

Definition showFieldError (f : Field) (m : jsstring) : Field :=
  set_fieldError (Some m) f.

Definition clearFieldError (f : Field) : Field := set_fieldError None f.

(** [rule.minLength && value.length < rule.minLength] *)
Definition too_short (r : Rule) (v : jsstring) : bool :=
  match minLength r with
  | Some n => negb (n =? 0) && (len v <? n)
  | None => false
  end.

(** [rule.pattern && !rule.pattern.test(value)] *)
Definition mismatch (r : Rule) (v : jsstring) : bool :=
  match pattern r with
  | Some p => negb (test p v)
  | None => false
  end.

(** [validateField(field)]: the verdict, and the field as it is shown
    afterwards. *)
Definition validateField (f : Field) : bool * Field :=
  let v := trim (value f) in
  match rule_for (name f) with
  | None => (true, f)
  | Some rule =>
      let f := clearFieldError f in
      if too_short rule v then (false, showFieldError f (message rule))
      else if mismatch rule v then (false, showFieldError f (message rule))
      else (true, f)
  end.

(** The submit button: its label, and the two things the handler
    toggles on it. *)
Record Button := {
  label : jsstring;
  disabled : bool;
  loading : bool
}.

(** The banner element: [kind] is the type it was created with, [shown]
    and [hiding] are the classes [notification--show] and
    [notification--hide]. *)
Record Notification := {
  nid : nat;
  banner : jsstring;
  kind : jsstring;
  shown : bool;
  hiding : bool
}.

Inductive When := Timeout (ms : Z) | AnimationFrame.

(** The closures the form hands to [setTimeout] and
    [requestAnimationFrame]; a banner is named by its identity. *)
Inductive Job :=
| SubmitDone (originalText : jsstring)
| ShowBanner (id : nat)
| HideBanner (id : nat)
| RemoveBanner (id : nat).

Record Task := { when : When; job : Job }.

Definition task (t : When) (j : Job) : Task := {| when := t; job := j |}.

(** The banner element as [showNotification] creates it. *)
Definition fresh_banner (id : nat) (msg type : jsstring) : Notification :=
  {| nid := id; banner := msg; kind := type; shown := false;
     hiding := false |}.

(** The banner once [hideNotification] has marked it. *)
Definition hidden (n : Notification) : Notification :=
  {| nid := nid n; banner := banner n; kind := kind n; shown := shown n;
     hiding := true |}.

Record World := {
  fields : list Field;
  submitButton : option Button;
  notification : option Notification;
  created : nat;
  tasks : list Task
}.

Definition set_fields (v : list Field) (w : World) : World :=
  {| fields := v; submitButton := submitButton w;
     notification := notification w; created := created w;
     tasks := tasks w |}.

Definition set_submitButton (v : option Button) (w : World) : World :=
  {| fields := fields w; submitButton := v;
     notification := notification w; created := created w;
     tasks := tasks w |}.

Definition set_notification (v : option Notification) (w : World) : World :=
  {| fields := fields w; submitButton := submitButton w;
     notification := v; created := created w; tasks := tasks w |}.

Definition set_created (v : nat) (w : World) : World :=
  {| fields := fields w; submitButton := submitButton w;
     notification := notification w; created := v; tasks := tasks w |}.

Definition set_tasks (v : list Task) (w : World) : World :=
  {| fields := fields w; submitButton := submitButton w;
     notification := notification w; created := created w; tasks := v |}.

Definition schedule (t : When) (j : Job) : M World unit :=
  modify (fun w => set_tasks (tasks w ++ [{| when := t; job := j |}]) w).

(** Applies [f] to the banner [id] if it is still the one in the page. *)
Definition on_banner (id : nat) (f : Notification -> option Notification)
  (w : World) : World :=
  match notification w with
  | Some n => if decide (nid n = id) then set_notification (f n) w else w
  | None => w
  end.

Definition hideNotification (id : nat) : M World unit :=
  modify (on_banner id (fun n => Some (hidden n))) >>
  schedule (Timeout 300) (RemoveBanner id).

Definition showNotification (msg type : jsstring) : M World unit :=
  modify (set_notification None) >>
  let! id := gets created in
  modify (set_created (S id)) >>
  modify (set_notification (Some (fresh_banner id msg type))) >>
  schedule AnimationFrame (ShowBanner id) >>
  schedule (Timeout 5000) (HideBanner id).

Definition handleFormSubmission : M World unit :=
  let! fs := gets fields in
  let checked := map validateField fs in
  modify (set_fields (map snd checked)) >>
  if negb (forallb fst checked) then
    showNotification (lit "Please fix the errors below") (lit "error")
  else
    let! b := gets submitButton in
    let! button := member b in
    let originalText := label button in
    modify (set_submitButton
              (Some {| label := lit "Sending..."; disabled := true;
                       loading := true |})) >>
    schedule (Timeout 2000) (SubmitDone originalText).

(** [form.reset()] *)
Definition reset (f : Field) : Field :=
  {| name := name f; value := defaultValue f;
     defaultValue := defaultValue f; fieldError := fieldError f |}.

(** The body of each scheduled closure.  The closure of the simulated
    submission holds on to the button the handler found, which is the
    button still in the world.  Clicks on the banner's close button are
    user events and not part of the model. *)
Definition call (j : Job) : M World unit :=
  match j with
  | SubmitDone originalText =>
      showNotification
        (lit "Thank you for your message! I'll get back to you soon.")
        (lit "success") >>
      modify (fun w => set_fields (map reset (fields w)) w) >>
      let! b := gets submitButton in
      let! _ := member b in
      modify (set_submitButton
                (Some {| label := originalText; disabled := false;
                         loading := false |}))
  | ShowBanner id =>
      modify (on_banner id (fun n =>
        Some {| nid := nid n; banner := banner n; kind := kind n;
                shown := true; hiding := hiding n |}))
  | HideBanner id => hideNotification id
  | RemoveBanner id => modify (on_banner id (fun _ => None))
  end.

(** A banner of the given kind is in the page. *)
Definition banner_shown (type : jsstring) (w : World) : Prop :=
  exists n, notification w = Some n /\ kind n = type.

(** Nothing but characters that are neither white space nor [@]. *)
Definition plain (s : jsstring) : Prop :=
  s <> [] /\ Forall (fun c => not_space_or_at c = true) s.

(** The shape of an e-mail address: [local@domain.tld], each of the three
    parts plain. *)
Definition email_shape (v : jsstring) : Prop :=
  exists a b c,
    v = a ++ [at_sign] ++ b ++ [full_stop] ++ c /\
    plain a /\ plain b /\ plain c.

(** Stated from the specification: a field passes when it meets the
    minimum length of its name, or has the shape of an e-mail address. *)
Definition passes (f : Field) : Prop :=
  let v := trim (value f) in
  (name f = lit "name" -> 2 <= len v) /\
  (name f = lit "email" -> email_shape v) /\
  (name f = lit "subject" -> 5 <= len v) /\
  (name f = lit "message" -> 10 <= len v).

End Form.

(** ** The theme switch

    [ThemeManager] of [src/app.js]; the fuller script has the same class,
    except that it looks the icon element up at each update instead of
    once.  The page is represented by what the class reads and writes:
    the item [theme] of [localStorage] ([None] for [null]), the answer of
    the media query, the two attributes of the root element and the text
    of the icon element ([None] when the page has none).  Storage is
    taken to be available. *)

Module Theme.

Definition light : jsstring := lit "light".
Definition dark : jsstring := lit "dark".

(** The crescent moon, U+1F319, and the sun with its variation selector,
    U+2600 U+FE0F, as code units. *)
Definition moon : jsstring := [55356; 57113]%N.
Definition sun : jsstring := [9728; 65039]%N.

Record World := {
  storedTheme : option jsstring;
  prefersDark : bool;
  dataTheme : option jsstring;
  dataColorScheme : option jsstring;
  themeIcon : option jsstring;
  currentTheme : jsstring
}.

(** [applyTheme(theme)] *)
Definition applyTheme (theme : jsstring) (w : World) : World :=
  {| storedTheme := storedTheme w; prefersDark := prefersDark w;
     dataTheme := Some theme; dataColorScheme := Some theme;
     themeIcon := themeIcon w; currentTheme := currentTheme w |}.

(** [this.currentTheme === 'light' ? moon : sun] *)
Definition icon_for (theme : jsstring) : jsstring :=
  if decide (theme = light) then moon else sun.

(** [updateThemeIcon()] *)
Definition updateThemeIcon (w : World) : World :=
  match themeIcon w with
  | Some _ =>
      {| storedTheme := storedTheme w; prefersDark := prefersDark w;
         dataTheme := dataTheme w; dataColorScheme := dataColorScheme w;
         themeIcon := Some (icon_for (currentTheme w));
         currentTheme := currentTheme w |}
  | None => w
  end.

Definition set_currentTheme (theme : jsstring) (w : World) : World :=
  {| storedTheme := storedTheme w; prefersDark := prefersDark w;
     dataTheme := dataTheme w; dataColorScheme := dataColorScheme w;
     themeIcon := themeIcon w; currentTheme := theme |}.

(** [localStorage.setItem('theme', v)] *)
Definition setItem (v : jsstring) (w : World) : World :=
  {| storedTheme := Some v; prefersDark := prefersDark w;
     dataTheme := dataTheme w; dataColorScheme := dataColorScheme w;
     themeIcon := themeIcon w; currentTheme := currentTheme w |}.

(** [toggle()] *)
Definition toggle (w : World) : World :=
  let w := set_currentTheme
             (if decide (currentTheme w = light) then dark else light) w in
  let w := applyTheme (currentTheme w) w in
  let w := updateThemeIcon w in
  setItem (currentTheme w) w.

(** [localStorage.getItem('theme') || (matches ? 'dark' : 'light')]: the
    stored string unless it is [null] or empty. *)
Definition initial_theme (stored : option jsstring) (matches : bool)
  : jsstring :=
  match stored with
  | Some (c :: s) => c :: s
  | _ => if matches then dark else light
  end.

(** [new ThemeManager()]: the constructor and [init()], on a page whose
    manager field is not yet set. *)
Definition construct (w : World) : World :=
  let w := set_currentTheme
             (initial_theme (storedTheme w) (prefersDark w)) w in
  let w := applyTheme (currentTheme w) w in
  updateThemeIcon w.

(** The page as it is found when it is loaded again: storage is kept,
    the document is new, and the media query may answer differently. *)
Definition reload (matches : bool) (attr1 attr2 : option jsstring)
  (icon : option jsstring) (w : World) : World :=
  {| storedTheme := storedTheme w; prefersDark := matches;
     dataTheme := attr1; dataColorScheme := attr2;
     themeIcon := icon; currentTheme := [] |}.

(** Attributes and icon agree with the theme of the manager. *)
Definition in_sync (w : World) : Prop :=
  dataTheme w = Some (currentTheme w) /\
  dataColorScheme w = Some (currentTheme w) /\
  (forall i, themeIcon w = Some i -> i = icon_for (currentTheme w)).

End Theme.

(** ** The mobile menu

    [Navigation] of [src/app.js]: the flag [isMenuOpen] and the classes
    it drives.  An element is represented by whether it carries the class
    [active] ([None] when the page lacks the element); [bodyMenuOpen] is
    the class [menu-open] of the body. *)

Module Menu.

Record World := {
  isMenuOpen : bool;
  nav : bool;
  navToggle : option bool;
  navMenu : option bool;
  navMenuContainer : option bool;
  bodyMenuOpen : bool
}.

(** [el?.classList.toggle('active')] *)
Definition toggle_active (el : option bool) : option bool :=
  match el with
  | Some a => Some (negb a)
  | None => None
  end.

(** [toggleMobileMenu()] *)
Definition toggleMobileMenu (w : World) : World :=
  let opened := negb (isMenuOpen w) in
  {| isMenuOpen := opened; nav := nav w;
     navToggle := toggle_active (navToggle w);
     navMenu := toggle_active (navMenu w);
     navMenuContainer := toggle_active (navMenuContainer w);
     bodyMenuOpen := opened |}.

(** What a click lands on: the toggle button, a navigation link, or
    anything else.  The toggle and the links are taken not to contain one
    another. *)
Inductive Target := OnToggle | OnLink | Elsewhere.

(** A click: its target, and whether the target lies within [#nav]. *)
Record Click := { target : Target; within_nav : bool }.

(** The listener of the toggle, registered only if the toggle exists. *)
Definition on_toggle_click (w : World) : World :=
  match navToggle w with
  | Some _ => toggleMobileMenu w
  | None => w
  end.

(** The listener of every link: [if (this.isMenuOpen) toggle]. *)
Definition on_link_click (w : World) : World :=
  if isMenuOpen w then toggleMobileMenu w else w.

(** The listener of the document:
    [if (this.isMenuOpen && !nav?.contains(e.target)) toggle]. *)
Definition on_document_click (c : Click) (w : World) : World :=
  if isMenuOpen w && negb (nav w && within_nav c)
  then toggleMobileMenu w else w.

(** A click runs the listener of its target, then, bubbling, the one of
    the document. *)
Definition click (c : Click) (w : World) : World :=
  let w :=
    match target c with
    | OnToggle => on_toggle_click w
    | OnLink => on_link_click w
    | Elsewhere => w
    end in
  on_document_click c w.

Definition clicks (cs : list Click) (w : World) : World :=
  foldl (fun w c => click c w) w cs.

(** Every element the page has carries [active] exactly when the menu is
    open, and so does the body its class. *)
Definition classes_follow (w : World) : Prop :=
  (forall a, navToggle w = Some a -> a = isMenuOpen w) /\
  (forall a, navMenu w = Some a -> a = isMenuOpen w) /\
  (forall a, navMenuContainer w = Some a -> a = isMenuOpen w) /\
  bodyMenuOpen w = isMenuOpen w.

End Menu.

(** ** Rate limiting

    The helpers that wrap a function [func]: [debounce] of [src/app.js],
    and [Utils.debounce] and [Utils.throttle] of the fuller script.  What
    [func] does is recorded as the list of the arguments it was called
    with.  The world of a wrapper holds the timers the wrapper set and
    that have neither fired nor been cleared. *)

Section RateLimit.

Variable A : Type.

(** What happens to a wrapper: it is called, or the event loop fires the
    oldest of its pending timers. *)
Inductive Event := Call (a : A) | Fire.

(** [debounce(func, delay)] of [src/app.js]. *)
Record Debounced := {
  timeoutId : option nat;
  d_pending : list (nat * A);
  d_next : nat;
  d_calls : list A
}.

(** [clearTimeout(id)]: [undefined]/[null] and ids of timers that are
    gone cancel nothing. *)
Definition clearTimeout (id : option nat) (l : list (nat * A))
  : list (nat * A) :=
  match id with
  | Some i => List.filter (fun p => negb (Nat.eqb (fst p) i)) l
  | None => l
  end.

Definition debounce_new : Debounced :=
  {| timeoutId := None; d_pending := []; d_next := 1%nat; d_calls := [] |}.

(** The returned function, called with [a]. *)
Definition debounce_call (a : A) (w : Debounced) : Debounced :=
  {| timeoutId := Some (d_next w);
     d_pending := clearTimeout (timeoutId w) (d_pending w) ++ [(d_next w, a)];
     d_next := S (d_next w);
     d_calls := d_calls w |}.

(** The timer's callback [() => func.apply(null, args)]. *)
Definition debounce_fire (w : Debounced) : Debounced :=
  match d_pending w with
  | [] => w
  | (_, a) :: rest =>
      {| timeoutId := timeoutId w; d_pending := rest; d_next := d_next w;
         d_calls := d_calls w ++ [a] |}
  end.

Definition debounce_step (w : Debounced) (e : Event) : Debounced :=
  match e with
  | Call a => debounce_call a w
  | Fire => debounce_fire w
  end.

Definition debounce_run (es : list Event) : Debounced :=
  foldl debounce_step debounce_new es.

(** [Utils.debounce(func, wait, immediate)] of the fuller script. *)
Record UDebounced := {
  timeout : option nat;
  u_pending : list (nat * A);
  u_next : nat;
  u_calls : list A
}.

Definition udebounce_new : UDebounced :=
  {| timeout := None; u_pending := []; u_next := 1%nat; u_calls := [] |}.

(** [executedFunction(a)] *)
Definition udebounce_call (immediate : bool) (a : A) (w : UDebounced)
  : UDebounced :=
  let callNow :=
    immediate && match timeout w with Some _ => false | None => true end in
  {| timeout := Some (u_next w);
     u_pending := clearTimeout (timeout w) (u_pending w) ++ [(u_next w, a)];
     u_next := S (u_next w);
     u_calls := if callNow then u_calls w ++ [a] else u_calls w |}.

(** [later()] *)
Definition udebounce_fire (immediate : bool) (w : UDebounced) : UDebounced :=
  match u_pending w with
  | [] => w
  | (_, a) :: rest =>
      {| timeout := None; u_pending := rest; u_next := u_next w;
         u_calls := if immediate then u_calls w else u_calls w ++ [a] |}
  end.

Definition udebounce_step (immediate : bool) (w : UDebounced) (e : Event)
  : UDebounced :=
  match e with
  | Call a => udebounce_call immediate a w
  | Fire => udebounce_fire immediate w
  end.

Definition udebounce_run (immediate : bool) (es : list Event) : UDebounced :=
  foldl (udebounce_step immediate) udebounce_new es.

(** [Utils.throttle(func, limit)] of the fuller script; its timers carry
    no arguments, so their number is all there is to them. *)
Record Throttled := {
  inThrottle : bool;
  t_pending : nat;
  t_calls : list A
}.

Definition throttle_new : Throttled :=
  {| inThrottle := false; t_pending := O; t_calls := [] |}.

Definition throttle_call (a : A) (w : Throttled) : Throttled :=
  if inThrottle w then w
  else {| inThrottle := true; t_pending := S (t_pending w);
          t_calls := t_calls w ++ [a] |}.

(** [() => inThrottle = false] *)
Definition throttle_fire (w : Throttled) : Throttled :=
  match t_pending w with
  | O => w
  | S n => {| inThrottle := false; t_pending := n; t_calls := t_calls w |}
  end.

Definition throttle_step (w : Throttled) (e : Event) : Throttled :=
  match e with
  | Call a => throttle_call a w
  | Fire => throttle_fire w
  end.

Definition throttle_run (es : list Event) : Throttled :=
  foldl throttle_step throttle_new es.

(** The calls that are followed by a firing before the next call: the
    trailing edge of each burst. *)
Fixpoint trailing (es : list Event) : list A :=
  match es with
  | [] => []
  | Fire :: rest => trailing rest
  | Call a :: rest =>
      match rest with
      | Fire :: _ => a :: trailing rest
      | _ => trailing rest
      end
  end.

(** The calls made while no timer is pending: the leading edge of each
    burst. *)
Fixpoint leading_from (busy : bool) (es : list Event) : list A :=
  match es with
  | [] => []
  | Fire :: rest => leading_from false rest
  | Call a :: rest =>
      if busy then leading_from true rest else a :: leading_from true rest
  end.

Definition leading (es : list Event) : list A := leading_from false es.

End RateLimit.

Arguments Call {A} a.
Arguments Fire {A}.

(** ** The contact form of the fuller script: field validation *)

Module FullForm.

(** [validateField(field)]: the error is cleared first, then the rule of
    the field's name, if any, is applied. *)
Definition validateField (f : Form.Field) : bool * Form.Field :=
  let value := trim (Form.value f) in
  let f := Form.clearFieldError f in
  if decide (Form.name f = lit "name") then
    if len value <? 2
    then (false, Form.showFieldError f
                   (lit "Name must be at least 2 characters long"))
    else (true, f)
  else if decide (Form.name f = lit "email") then
    if negb (test Form.emailPattern value)
    then (false, Form.showFieldError f
                   (lit "Please enter a valid email address"))
    else (true, f)
  else if decide (Form.name f = lit "subject") then
    if len value <? 5
    then (false, Form.showFieldError f
                   (lit "Subject must be at least 5 characters long"))
    else (true, f)
  else if decide (Form.name f = lit "message") then
    if len value <? 10
    then (false, Form.showFieldError f
                   (lit "Message must be at least 10 characters long"))
    else (true, f)
  else (true, f).

End FullForm.

(** ** The life of the form *)

(** What happens to the form: it is submitted, a pending task is taken
    off the queue and run, the close button of the banner is clicked, or
    the controls change (typing, and the inline checks on blur). *)
Inductive FormStep : Form.World -> Form.World -> Prop :=
| step_submit w w' :
    Form.handleFormSubmission w = Normal (tt, w') -> FormStep w w'
| step_task w pre t post w' :
    Form.tasks w = pre ++ t :: post ->
    Form.call (Form.job t) (Form.set_tasks (pre ++ post) w) = Normal (tt, w') ->
    FormStep w w'
| step_close w n w' :
    Form.notification w = Some n ->
    Form.hideNotification (Form.nid n) w = Normal (tt, w') ->
    FormStep w w'
| step_edit w fs :
    FormStep w (Form.set_fields fs w).

(** The page as loaded: no banner, nothing pending. *)
Definition form_loaded (w : Form.World) : Prop :=
  Form.notification w = None /\ Form.tasks w = [].

Inductive FormReachable : Form.World -> Prop :=
| form_start w : form_loaded w -> FormReachable w
| form_next w w' : FormReachable w -> FormStep w w' -> FormReachable w'.

(** The banner a job is about, if any. *)
Definition job_banner (j : Form.Job) : option nat :=
  match j with
  | Form.SubmitDone _ => None
  | Form.ShowBanner id => Some id
  | Form.HideBanner id => Some id
  | Form.RemoveBanner id => Some id
  end.

(** Every banner in the page has its dismissal scheduled: its hiding
    after 5000 ms while it is not yet hiding, its removal after 300 ms
    once it is. *)
Definition dismissal_pending (w : Form.World) : Prop :=
  forall n, Form.notification w = Some n ->
    if Form.hiding n
    then In (Form.task (Form.Timeout 300) (Form.RemoveBanner (Form.nid n)))
            (Form.tasks w)
    else In (Form.task (Form.Timeout 5000) (Form.HideBanner (Form.nid n)))
            (Form.tasks w).

(** White space or a line terminator. *)
Definition white (c : code_unit) : Prop := isWhiteSpace c = true.

(** The control with another text typed into it. *)
Definition with_value (v : jsstring) (f : Form.Field) : Form.Field :=
  {| Form.name := Form.name f; Form.value := v;
     Form.defaultValue := Form.defaultValue f;
     Form.fieldError := Form.fieldError f |}.

(** The number of [@] in a string. *)
Definition at_signs (v : jsstring) : nat :=
  length (List.filter (N.eqb Form.at_sign) v).

(** ** Worlds that differ in what is displayed only *)

(** Two worlds of the animation with the same counters and the same
    pending timers, each with a sink. *)
Definition same_shape (w v : AppJs.World) : Prop :=
  AppJs.textIndex w = AppJs.textIndex v /\
  AppJs.charIndex w = AppJs.charIndex v /\
  AppJs.timers w = AppJs.timers v /\
  is_Some (AppJs.renderedText w) /\ is_Some (AppJs.renderedText v).

(** Two outcomes of the same kind, and of the same shape when worlds. *)
Definition shape_related (a b : Completion (unit * AppJs.World)) : Prop :=
  match a, b with
  | Normal (_, w'), Normal (_, v') => same_shape w' v'
  | Throw _, Throw _ => True
  | _, _ => False
  end.

Definition shape_related_worlds (a b : Completion AppJs.World) : Prop :=
  match a, b with
  | Normal w', Normal v' => same_shape w' v'
  | Throw _, Throw _ => True
  | _, _ => False
  end.

(** The page with its sink emptied. *)
Definition emptied (dc : AppJs.DomCache) : AppJs.DomCache :=
  {| AppJs.typedTextSpan := Some []; AppJs.cursorSpan := AppJs.cursorSpan dc |}.

(** What an observer sees once the first call of [type] has returned, on
    a page whose sink held [r], for a playlist whose first entry is
    [t]. *)
Definition first_observation (r t : jsstring) : Observation :=
  {| obs_textIndex := 0;
     obs_charIndex := if 0 <? len t then 1 else 0;
     obs_rendered := Some (if 0 <? len t then r ++ take 1 t else r);
     obs_timers :=
       [ if 0 <? len t then timer CbType 150 else timer CbErase 2000 ] |}.

(** ** The time the animation takes *)

(** The time the next [n] firings take, in milliseconds.  Only one timer
    is ever pending, and it was set when the previous one fired: the time
    to its firing is its delay. *)
Fixpoint scheduled_time (texts : list jsstring) (n : nat) (w : AppJs.World)
  : Z :=
  match n with
  | O => 0
  | S n' =>
      match AppJs.timers w with
      | [] => 0
      | tm :: _ =>
          match AppJs.fire texts w with
          | Normal w' => delay tm + scheduled_time texts n' w'
          | Throw _ => delay tm
          end
      end
  end.

(** The number of code units of a playlist. *)
Definition total_length (l : list jsstring) : Z :=
  foldr (fun t n => len t + n) 0 l.

(** ** Sample inputs *)

(** The one-entry playlist of the specification's scenario, in a page
    whose sink is empty and that has no cursor element. *)
Definition hi_texts : list jsstring := [lit "Hi"].

Definition hi_page : AppJs.DomCache :=
  {| AppJs.typedTextSpan := Some []; AppJs.cursorSpan := None |}.

(** "H" displayed, [type] pending. *)
Definition hi_one : AppJs.World :=
  AppJs.displaying None 0 1 (lit "Hi") (timer CbType 150).

(** "Hi" displayed, [type] pending. *)
Definition hi_typed : AppJs.World :=
  AppJs.displaying None 0 2 (lit "Hi") (timer CbType 150).

(** "Hi" displayed, [erase] pending. *)
Definition hi_pause : AppJs.World :=
  AppJs.displaying None 0 2 (lit "Hi") (timer CbErase 2000).

(** A page whose sink already holds a character. *)
Definition prefilled_page : AppJs.DomCache :=
  {| AppJs.typedTextSpan := Some (lit "X"); AppJs.cursorSpan := None |}.

Definition sample_field (n v : string) : Form.Field :=
  {| Form.name := lit n; Form.value := lit v; Form.defaultValue := [];
     Form.fieldError := None |}.

Definition send_button : Form.Button :=
  {| Form.label := lit "Send Message"; Form.disabled := false;
     Form.loading := false |}.

(** A form filled in correctly. *)
Definition filled_form : Form.World :=
  {| Form.fields :=
       [ sample_field "name" "Ada"; sample_field "email" " ada@example.org ";
         sample_field "subject" "Hello"; sample_field "message" "Hello there" ];
     Form.submitButton := Some send_button;
     Form.notification := None; Form.created := O; Form.tasks := [] |}.

(** "XHi" displayed where "Hi" should be, two code units typed, [erase]
    pending. *)
Definition hi_smeared : AppJs.World :=
  {| AppJs.domCache :=
       {| AppJs.typedTextSpan := Some (lit "XHi"); AppJs.cursorSpan := None |};
     AppJs.textIndex := 0; AppJs.charIndex := 2;
     AppJs.timers := [timer CbErase 2000] |}.

(** A page in the light theme, nothing stored, with an icon. *)
Definition light_page : Theme.World :=
  {| Theme.storedTheme := None; Theme.prefersDark := false;
     Theme.dataTheme := None; Theme.dataColorScheme := None;
     Theme.themeIcon := Some []; Theme.currentTheme := Theme.light |}.

(** The menu as the page is loaded, and once opened. *)
Definition menu_closed : Menu.World :=
  {| Menu.isMenuOpen := false; Menu.nav := true;
     Menu.navToggle := Some false; Menu.navMenu := Some false;
     Menu.navMenuContainer := Some false; Menu.bodyMenuOpen := false |}.

Definition menu_open : Menu.World := Menu.toggleMobileMenu menu_closed.

Definition toggle_click : Menu.Click :=
  {| Menu.target := Menu.OnToggle; Menu.within_nav := true |}.

Definition link_click : Menu.Click :=
  {| Menu.target := Menu.OnLink; Menu.within_nav := true |}.

(** The filled form once its submission has been handled. *)
Definition sent_form : Form.World :=
  match Form.handleFormSubmission filled_form with
  | Normal (_, w) => w
  | Throw _ => filled_form
  end.

(** A form whose name is too short, and what its submission leaves. *)
Definition short_form : Form.World :=
  {| Form.fields := [ sample_field "name" "A" ];
     Form.submitButton := Some send_button;
     Form.notification := None; Form.created := O; Form.tasks := [] |}.

Definition rejected_form : Form.World :=
  match Form.handleFormSubmission short_form with
  | Normal (_, w) => w
  | Throw _ => short_form
  end.

(** On the page whose sink held "X": "XH" displayed after the first call
    of [type], and "XHi" after the next firing. *)
Definition prefilled_one : AppJs.World :=
  {| AppJs.domCache :=
       {| AppJs.typedTextSpan := Some (lit "XH"); AppJs.cursorSpan := None |};
     AppJs.textIndex := 0; AppJs.charIndex := 1;
     AppJs.timers := [timer CbType 150] |}.

Definition prefilled_typed : AppJs.World :=
  {| AppJs.domCache :=
       {| AppJs.typedTextSpan := Some (lit "XHi"); AppJs.cursorSpan := None |};
     AppJs.textIndex := 0; AppJs.charIndex := 2;
     AppJs.timers := [timer CbType 150] |}.


(** * Properties *)

(** ** Strings *)

Lemma index_Some_range {A} (a : list A) (i : Z) (x : A) :
  index a i = Some x -> 0 <= i < len a.
Proof.
  unfold index, len. destruct (0 <=? i) eqn:E; [|discriminate].
  intros H. apply lookup_lt_Some in H. apply Z.leb_le in E. lia.
Qed.

Lemma index_in_range {A} (a : list A) (i : Z) :
  0 <= i < len a -> exists x, index a i = Some x.
Proof.
  unfold index, len. intros [H0 H1].
  destruct (0 <=? i) eqn:E; [|apply Z.leb_gt in E; lia].
  destruct (lookup_lt_is_Some_2 a (Z.to_nat i)) as [x Hx]; [lia|].
  exists x. exact Hx.
Qed.

Lemma index_None_range {A} (a : list A) (i : Z) :
  index a i = None -> i < 0 \/ len a <= i.
Proof.
  intros H. destruct (Z_lt_ge_dec i 0) as [|G]; [now left|right].
  destruct (Z_lt_ge_dec i (len a)) as [L|]; [|lia].
  destruct (index_in_range a i) as [x Hx]; [lia|congruence].
Qed.

Lemma substring_prefix (t : jsstring) (c : Z) :
  0 <= c <= len t -> substring t 0 c = take (Z.to_nat c) t.
Proof.
  intros H. unfold substring.
  replace (Z.min (Z.max 0 0) (len t)) with 0 by (unfold len in *; lia).
  replace (Z.min (Z.max c 0) (len t)) with c by lia.
  replace (Z.min 0 c) with 0 by lia.
  replace (Z.max 0 c - 0) with c by lia.
  reflexivity.
Qed.

Lemma substring_empty (t : jsstring) : substring t 0 0 = [].
Proof.
  rewrite substring_prefix; [reflexivity|unfold len; lia].
Qed.

Lemma substring_full (t : jsstring) : substring t 0 (len t) = t.
Proof.
  rewrite substring_prefix by (unfold len; lia).
  unfold len. rewrite Nat2Z.id. apply firstn_all.
Qed.

Lemma substring_snoc (t : jsstring) (c : Z) (x : code_unit) :
  index t c = Some x ->
  substring t 0 c ++ [x] = substring t 0 (c + 1).
Proof.
  intros H. pose proof (index_Some_range _ _ _ H) as R.
  rewrite !substring_prefix by lia.
  unfold index in H. destruct (0 <=? c); [|discriminate].
  replace (Z.to_nat (c + 1)) with (S (Z.to_nat c)) by lia.
  symmetry. apply take_S_r. exact H.
Qed.

Lemma substring_substring (t : jsstring) (c : Z) :
  0 < c <= len t ->
  substring (substring t 0 c) 0 (c - 1) = substring t 0 (c - 1).
Proof.
  intros H. rewrite (substring_prefix t c) by lia.
  assert (L : len (take (Z.to_nat c) t) = c).
  { unfold len in *. rewrite length_take. lia. }
  rewrite !substring_prefix by lia.
  rewrite take_take. f_equal. lia.
Qed.

Lemma charAt_index (t : jsstring) (c : Z) (x : code_unit) :
  index t c = Some x -> charAt t c = [x].
Proof. unfold charAt. now intros ->. Qed.

(** ** The steps of the animation, case by case *)

Section Steps.

Import AppJs.

Variable texts : list jsstring.

Ltac run_step :=
  repeat (progress (unfold type, erase, start, bind, gets, modify, member,
                      ret, throw, get_textContent, put_textContent,
                      setTimeout; cbn)).

Lemma type_typing (w : World) (t r : jsstring) :
  index texts (textIndex w) = Some t ->
  typedTextSpan (domCache w) = Some r ->
  charIndex w < len t ->
  type texts w =
    Normal (tt, set_timers (timers w ++ [timer CbType typingDelay])
                  (set_charIndex (charIndex w + 1)
                     (set_typedTextSpan
                        (Some (r ++ charAt t (charIndex w))) w))).
Proof.
  intros Ht Hr Hc. run_step. rewrite Ht.
  apply Z.ltb_lt in Hc. rewrite Hc. run_step. rewrite Hr. run_step.
  rewrite Ht. run_step. rewrite Hr. reflexivity.
Qed.

Lemma type_done (w : World) (t : jsstring) :
  index texts (textIndex w) = Some t ->
  len t <= charIndex w ->
  type texts w =
    Normal (tt, set_timers (timers w ++ [timer CbErase newTextDelay]) w).
Proof.
  intros Ht Hc. run_step. rewrite Ht.
  apply Z.ltb_ge in Hc. rewrite Hc. reflexivity.
Qed.

Lemma type_no_entry (w : World) :
  index texts (textIndex w) = None -> type texts w = Throw TypeError.
Proof. intros Ht. run_step. now rewrite Ht. Qed.

Lemma erase_erasing (w : World) (t r : jsstring) :
  index texts (textIndex w) = Some t ->
  typedTextSpan (domCache w) = Some r ->
  0 < charIndex w ->
  erase texts w =
    Normal (tt, set_timers (timers w ++ [timer CbErase erasingDelay])
                  (set_charIndex (charIndex w - 1)
                     (set_typedTextSpan
                        (Some (substring t 0 (charIndex w - 1))) w))).
Proof.
  intros Ht Hr Hc. run_step.
  apply Z.ltb_lt in Hc. rewrite Hc. run_step. rewrite Ht. run_step.
  rewrite Hr. reflexivity.
Qed.

Lemma erase_done (w : World) :
  charIndex w <= 0 ->
  erase texts w =
    Normal (tt, set_timers (timers w ++ [timer CbType (typingDelay + 1100)])
                  (set_textIndex (next_textIndex texts (textIndex w)) w)).
Proof.
  intros Hc. run_step. apply Z.ltb_ge in Hc. rewrite Hc.
  unfold next_textIndex. cbn. destruct (len texts <=? textIndex w + 1); reflexivity.
Qed.

Lemma next_textIndex_mod (ti : Z) :
  0 <= ti < len texts ->
  next_textIndex texts ti = (ti + 1) mod len texts.
Proof.
  intros H. unfold next_textIndex.
  destruct (len texts <=? ti + 1) eqn:E.
  - apply Z.leb_le in E. replace (ti + 1) with (len texts) by lia.
    symmetry. apply Z_mod_same_full.
  - apply Z.leb_gt in E. symmetry. apply Z.mod_small. lia.
Qed.

End Steps.

(** ** Single steps *)

Section StepClaims.

Import AppJs.

Variable texts : list jsstring.

(** C2. In a state whose [charIndex] is below the length of the current
    playlist entry, [type] appends exactly the code unit
    [texts[textIndex][charIndex]] to the displayed text, increments
    [charIndex] and schedules [type] after [typingDelay] = 150 ms; in a
    state whose [charIndex] equals that length, [type] leaves the state as
    it is and schedules [erase] after [newTextDelay] = 2000 ms. *)
Theorem type_step_spec (w : World) (t r : jsstring) :
  index texts (textIndex w) = Some t ->
  renderedText w = Some r ->
  0 <= charIndex w ->
  (charIndex w < len t ->
   exists c w',
     index t (charIndex w) = Some c /\
     type texts w = Normal (tt, w') /\
     renderedText w' = Some (r ++ [c]) /\
     charIndex w' = charIndex w + 1 /\
     textIndex w' = textIndex w /\
     timers w' = timers w ++ [timer CbType 150]) /\
  (charIndex w = len t ->
   type texts w =
     Normal (tt, set_timers (timers w ++ [timer CbErase 2000]) w)).
Proof.
  intros Ht Hr H0. split.
  - intros Hlt.
    destruct (index_in_range t (charIndex w)) as [c Hc]; [lia|].
    exists c. eexists. split; [exact Hc|].
    split; [apply (type_typing texts w t r Ht Hr Hlt)|].
    rewrite (charAt_index _ _ _ Hc). repeat split.
  - intros Heq. apply (type_done texts w t Ht). lia.
Qed.

(** C3 (amended). In a state within bounds with [charIndex > 0],
    [erase] replaces the displayed text by the first [charIndex - 1] code
    units of the current playlist entry -- which is the displayed text
    cut down to its first [charIndex - 1] code units whenever the
    displayed text was the prefix of length [charIndex] of that entry --
    decrements [charIndex] and schedules [erase] after [erasingDelay] =
    100 ms; with [charIndex = 0] it moves [textIndex] to
    [(textIndex + 1) mod len(texts)], leaves the displayed text and
    schedules [type] after [typingDelay + 1100] ms. *)
Theorem erase_step_spec (w : World) (t r : jsstring) :
  in_bounds texts w ->
  index texts (textIndex w) = Some t ->
  renderedText w = Some r ->
  (0 < charIndex w ->
   exists w',
     erase texts w = Normal (tt, w') /\
     renderedText w' = Some (take (Z.to_nat (charIndex w - 1)) t) /\
     (r = take (Z.to_nat (charIndex w)) t ->
      renderedText w' = Some (take (Z.to_nat (charIndex w - 1)) r)) /\
     charIndex w' = charIndex w - 1 /\
     textIndex w' = textIndex w /\
     timers w' = timers w ++ [timer CbErase 100]) /\
  (charIndex w = 0 ->
   exists w',
     erase texts w = Normal (tt, w') /\
     textIndex w' = (textIndex w + 1) mod len texts /\
     charIndex w' = 0 /\
     renderedText w' = Some r /\
     timers w' = timers w ++ [timer CbType (150 + 1100)]).
Proof.
  intros [Hti (t' & Ht' & Hci)] Ht Hr.
  rewrite Ht in Ht'. injection Ht' as <-. split.
  - intros Hpos. eexists. split.
    + apply (erase_erasing texts w t r Ht Hr Hpos).
    + unfold renderedText. cbn.
      rewrite substring_prefix by lia. split; [reflexivity|].
      split; [|repeat split].
      intros ->. rewrite take_take. do 2 f_equal. lia.
  - intros Hz. eexists. split.
    + apply (erase_done texts w). lia.
    + cbn. rewrite next_textIndex_mod by lia. repeat split; assumption.
Qed.


Lemma next_textIndex_range (ti : Z) :
  0 <= ti < len texts -> 0 <= next_textIndex texts ti < len texts.
Proof.
  intros H. unfold next_textIndex.
  destruct (len texts <=? ti + 1) eqn:E; [lia|].
  apply Z.leb_gt in E. lia.
Qed.

(** C5. From a state within bounds, [type] and [erase] both return, and
    the state they leave is within bounds again:
    [0 <= textIndex < len(texts)] and
    [0 <= charIndex <= len(texts[textIndex])]; after the last entry
    [textIndex] is back at 0. *)
Theorem steps_preserve_bounds (w : World) :
  in_bounds texts w ->
  is_Some (renderedText w) ->
  (exists w', type texts w = Normal (tt, w') /\ in_bounds texts w') /\
  (exists w',
     erase texts w = Normal (tt, w') /\ in_bounds texts w' /\
     (charIndex w = 0 -> textIndex w = len texts - 1 -> textIndex w' = 0)).
Proof.
  intros [Hti (t & Ht & Hci)] [r Hr]. split.
  - destruct (Z_lt_ge_dec (charIndex w) (len t)) as [Hlt|Hge].
    + eexists. split; [apply (type_typing texts w t r Ht Hr Hlt)|].
      split; [exact Hti|]. exists t. cbn. split; [exact Ht|lia].
    + eexists. split; [apply (type_done texts w t Ht); lia|].
      split; [exact Hti|]. exists t. cbn. split; [exact Ht|lia].
  - destruct (Z_lt_ge_dec 0 (charIndex w)) as [Hpos|Hz].
    + eexists. split; [apply (erase_erasing texts w t r Ht Hr Hpos)|].
      split; [|cbn; lia].
      split; [exact Hti|]. exists t. cbn. split; [exact Ht|lia].
    + eexists. split; [apply (erase_done texts w); lia|].
      pose proof (next_textIndex_range _ Hti) as Hn.
      destruct (index_in_range texts _ Hn) as [t' Ht'].
      split.
      * split; [exact Hn|]. exists t'. cbn. split; [exact Ht'|].
        unfold len. lia.
      * intros _ Hlast. cbn. unfold next_textIndex.
        destruct (len texts <=? textIndex w + 1) eqn:E; [reflexivity|].
        apply Z.leb_gt in E. lia.
Qed.

End StepClaims.

(** ** The animation as a whole *)

Section Cycle.

Import AppJs.

Variable texts : list jsstring.

(** Each callback returns from a state satisfying the invariant, keeps
    the invariant and leaves exactly one more timer pending. *)
Lemma invariant_call (f : Callback) (w : World) :
  invariant texts w ->
  exists w' tm,
    call texts f w = Normal (tt, w') /\ invariant texts w' /\
    timers w' = timers w ++ [tm].
Proof.
  intros [[Hti (t & Ht & Hci)] (t' & Ht' & Hp)].
  rewrite Ht in Ht'. injection Ht' as <-. unfold renderedText in Hp.
  destruct f; cbn [call].
  - destruct (Z_lt_ge_dec (charIndex w) (len t)) as [Hlt|Hge].
    + destruct (index_in_range t (charIndex w)) as [c Hc]; [lia|].
      eexists. eexists. split; [apply (type_typing texts w t _ Ht Hp Hlt)|].
      split; [|reflexivity]. split.
      * split; [exact Hti|]. exists t. cbn. split; [exact Ht|lia].
      * exists t. split; [exact Ht|]. unfold renderedText. cbn.
        rewrite (charAt_index _ _ _ Hc), (substring_snoc _ _ _ Hc).
        reflexivity.
    + eexists. eexists. split; [apply (type_done texts w t Ht); lia|].
      split; [|reflexivity]. split.
      * split; [exact Hti|]. exists t. cbn. split; [exact Ht|lia].
      * exists t. split; [exact Ht|exact Hp].
  - destruct (Z_lt_ge_dec 0 (charIndex w)) as [Hpos|Hz].
    + eexists. eexists. split; [apply (erase_erasing texts w t _ Ht Hp Hpos)|].
      split; [|reflexivity]. split.
      * split; [exact Hti|]. exists t. cbn. split; [exact Ht|lia].
      * exists t. split; [exact Ht|reflexivity].
    + eexists. eexists. split; [apply (erase_done texts w); lia|].
      split; [|reflexivity].
      pose proof (next_textIndex_range texts _ Hti) as Hn.
      destruct (index_in_range texts _ Hn) as [t' Ht'].
      split.
      * split; [exact Hn|]. exists t'. cbn. split; [exact Ht'|].
        unfold len. lia.
      * exists t'. split; [exact Ht'|]. unfold renderedText. cbn.
        rewrite Hp. replace (charIndex w) with 0 by lia.
        now rewrite !substring_empty.
Qed.

Lemma invariant_fire (w w' : World) :
  invariant texts w -> fire texts w = Normal w' -> invariant texts w'.
Proof.
  intros Hinv. unfold fire. destruct (timers w) as [|tm rest] eqn:E.
  - now intros [= <-].
  - destruct (invariant_call (callback tm) (set_timers rest w))
      as (w1 & tm1 & Hc & Hi & _); [exact Hinv|].
    unfold exec. rewrite Hc. now intros [= <-].
Qed.

Lemma start_sink (dc : DomCache) (r : jsstring) :
  typedTextSpan dc = Some r -> start texts (init dc) = type texts (init dc).
Proof.
  intros Hs. unfold start, bind, gets. cbn [init domCache]. now rewrite Hs.
Qed.

Lemma start_no_sink (dc : DomCache) :
  typedTextSpan dc = None -> start texts (init dc) = Normal (tt, init dc).
Proof.
  intros Hs. unfold start, bind, gets. cbn [init domCache]. now rewrite Hs.
Qed.

Lemma invariant_init (dc : DomCache) (t : jsstring) :
  typedTextSpan dc = Some [] -> index texts 0 = Some t ->
  invariant texts (init dc).
Proof.
  intros Hs Ht. pose proof (index_Some_range _ _ _ Ht) as R. split.
  - split; [exact R|]. exists t. cbn. split; [exact Ht|unfold len; lia].
  - exists t. split; [exact Ht|]. unfold renderedText. cbn.
    now rewrite Hs, substring_empty.
Qed.

Lemma invariant_start (dc : DomCache) (w : World) :
  typedTextSpan dc = Some [] ->
  exec (start texts) (init dc) = Normal w ->
  invariant texts w /\ exists tm, timers w = [tm].
Proof.
  intros Hs. unfold exec. rewrite (start_sink dc [] Hs).
  destruct (index texts 0) as [t|] eqn:Ht.
  - destruct (invariant_call CbType _ (invariant_init dc t Hs Ht))
      as (w1 & tm & Hc & Hi & Htm).
    cbn [call] in Hc. rewrite Hc. intros [= <-].
    split; [exact Hi|]. exists tm. exact Htm.
  - rewrite type_no_entry by exact Ht. discriminate.
Qed.

(** Every reachable world satisfies the invariant and has exactly one
    timer pending: which pending timer the event loop takes is never a
    choice. *)
Lemma reachable_invariant (dc : DomCache) (w : World) :
  typedTextSpan dc = Some [] ->
  Reachable texts dc w ->
  invariant texts w /\ exists tm, timers w = [tm].
Proof.
  intros Hs Hr. induction Hr as [w Hw|w w' _ [IH [tm Htm]] Hf].
  - exact (invariant_start dc w Hs Hw).
  - split; [exact (invariant_fire w w' IH Hf)|].
    unfold fire in Hf. rewrite Htm in Hf.
    destruct (invariant_call (callback tm) (set_timers [] w))
      as (w1 & tm1 & Hc & _ & Ht1); [exact IH|].
    unfold exec in Hf. rewrite Hc in Hf. injection Hf as <-.
    exists tm1. exact Ht1.
Qed.

(** C1 (amended). Let the sink be empty when the script starts.  In
    every state the animation reaches -- the one the first call of [type] leaves and
    the one every later [type] or [erase] step leaves -- the displayed
    text is the prefix of length [charIndex] of the current playlist
    entry. *)
Theorem rendered_prefix_reachable (dc : DomCache) (w : World) :
  typedTextSpan dc = Some [] ->
  Reachable texts dc w ->
  rendered_prefix texts w.
Proof.
  intros Hs Hr. exact (proj2 (proj1 (reachable_invariant dc w Hs Hr))).
Qed.

(** *** One entry, firing by firing *)

Lemma run_add (a b : nat) (w : World) :
  run texts (a + b) w =
    match run texts a w with
    | Normal w' => run texts b w'
    | Throw e => Throw e
    end.
Proof.
  revert w. induction a as [|a IH]; intros w; cbn; [reflexivity|].
  destruct (fire texts w); [apply IH|reflexivity].
Qed.

Lemma fire_typing cur ti ci t d :
  index texts ti = Some t -> 0 <= ci < len t ->
  fire texts (displaying cur ti ci t (timer CbType d)) =
    Normal (displaying cur ti (ci + 1) t (timer CbType typingDelay)).
Proof.
  intros Ht Hc. destruct (index_in_range t ci Hc) as [c Hx].
  unfold fire, exec. cbn [timers displaying callback timer call].
  rewrite (type_typing texts _ t (substring t 0 ci));
    [|exact Ht|reflexivity|cbn; lia].
  unfold displaying, set_timers, set_charIndex, set_typedTextSpan. cbn.
  now rewrite (charAt_index _ _ _ Hx), (substring_snoc _ _ _ Hx).
Qed.

Lemma fire_typed cur ti t d :
  index texts ti = Some t ->
  fire texts (displaying cur ti (len t) t (timer CbType d)) =
    Normal (displaying cur ti (len t) t (timer CbErase newTextDelay)).
Proof.
  intros Ht. unfold fire, exec. cbn [timers displaying callback timer call].
  rewrite (type_done texts _ t); [reflexivity|exact Ht|cbn; lia].
Qed.

Lemma fire_erasing cur ti ci t d :
  index texts ti = Some t -> 0 < ci ->
  fire texts (displaying cur ti ci t (timer CbErase d)) =
    Normal (displaying cur ti (ci - 1) t (timer CbErase erasingDelay)).
Proof.
  intros Ht Hc. unfold fire, exec. cbn [timers displaying callback timer call].
  rewrite (erase_erasing texts _ t (substring t 0 ci));
    [reflexivity|exact Ht|reflexivity|cbn; lia].
Qed.

Lemma fire_erased cur ti t d :
  fire texts (displaying cur ti 0 t (timer CbErase d)) =
    Normal (before_entry cur (next_textIndex texts ti)).
Proof.
  unfold fire, exec. cbn [timers displaying callback timer call].
  rewrite (erase_done texts); [|cbn; lia].
  unfold before_entry, displaying, set_timers, set_textIndex. cbn.
  now rewrite substring_empty.
Qed.

Lemma run_typing (k : nat) cur ti ci t d :
  index texts ti = Some t -> 0 <= ci -> ci + Z.of_nat k <= len t ->
  exists d',
    run texts k (displaying cur ti ci t (timer CbType d)) =
      Normal (displaying cur ti (ci + Z.of_nat k) t (timer CbType d')).
Proof.
  intros Ht. revert ci d. induction k as [|k IH]; intros ci d H0 Hk.
  - exists d. cbn. now rewrite Z.add_0_r.
  - cbn [run]. rewrite fire_typing by (trivial; lia).
    destruct (IH (ci + 1) typingDelay) as [d' Hd']; [lia|lia|].
    exists d'. rewrite Hd'. do 2 f_equal. lia.
Qed.

Lemma run_erasing (k : nat) cur ti ci t d :
  index texts ti = Some t -> Z.of_nat k <= ci ->
  exists d',
    run texts k (displaying cur ti ci t (timer CbErase d)) =
      Normal (displaying cur ti (ci - Z.of_nat k) t (timer CbErase d')).
Proof.
  intros Ht. revert ci d. induction k as [|k IH]; intros ci d Hk.
  - exists d. cbn. now rewrite Z.sub_0_r.
  - cbn [run]. rewrite fire_erasing by (trivial; lia).
    destruct (IH (ci - 1) erasingDelay) as [d' Hd']; [lia|].
    exists d'. rewrite Hd'. do 2 f_equal. lia.
Qed.

Lemma before_entry_displaying cur ti t :
  before_entry cur ti = displaying cur ti 0 t (timer CbType (typingDelay + 1100)).
Proof. unfold before_entry, displaying. now rewrite !substring_empty. Qed.

(** Up to the last firing of the cycle of entry [ti], [textIndex] stays
    [ti]. *)
Lemma run_within_cycle (k : nat) cur ti t :
  index texts ti = Some t -> (k < cycle_steps t)%nat ->
  exists w', run texts k (before_entry cur ti) = Normal w' /\
             textIndex w' = ti.
Proof.
  intros Ht Hk. unfold cycle_steps in Hk.
  rewrite (before_entry_displaying cur ti t).
  destruct (le_lt_dec k (length t)) as [Hle|Hgt].
  - destruct (run_typing k cur ti 0 t (typingDelay + 1100) Ht) as [d' Hd'];
      [lia|unfold len; lia|].
    eexists. split; [exact Hd'|reflexivity].
  - replace k with (length t + (1 + (k - length t - 1)))%nat by lia.
    rewrite run_add.
    destruct (run_typing (length t) cur ti 0 t (typingDelay + 1100) Ht)
      as [d' Hd']; [lia|unfold len; lia|].
    rewrite Hd'. change (0 + Z.of_nat (length t)) with (len t).
    rewrite run_add. cbn [run]. rewrite fire_typed by exact Ht.
    destruct (run_erasing (k - length t - 1) cur ti (len t) t newTextDelay Ht)
      as [d2 Hd2]; [unfold len; lia|].
    eexists. split; [exact Hd2|reflexivity].
Qed.

(** The last firing of the cycle moves on to the next entry. *)
Lemma run_cycle cur ti t :
  index texts ti = Some t ->
  run texts (cycle_steps t) (before_entry cur ti) =
    Normal (before_entry cur (next_textIndex texts ti)).
Proof.
  intros Ht. unfold cycle_steps.
  rewrite (before_entry_displaying cur ti t).
  replace (2 * length t + 2)%nat
    with (length t + (1 + (length t + 1)))%nat by lia.
  rewrite run_add.
  destruct (run_typing (length t) cur ti 0 t (typingDelay + 1100) Ht)
    as [d' Hd']; [lia|unfold len; lia|].
  rewrite Hd'. change (0 + Z.of_nat (length t)) with (len t).
  rewrite run_add. cbn [run]. rewrite fire_typed by exact Ht.
  rewrite run_add.
  destruct (run_erasing (length t) cur ti (len t) t newTextDelay Ht)
    as [d2 Hd2]; [unfold len; lia|].
  rewrite Hd2. replace (len t - Z.of_nat (length t)) with 0 by (unfold len; lia).
  cbn [run]. now rewrite fire_erased.
Qed.

(** *** One pass over the playlist *)

Lemma run_rest cur (rest : list jsstring) (i : nat) :
  drop i texts = rest -> rest <> [] ->
  run texts (steps_of rest) (before_entry cur (Z.of_nat i)) =
    Normal (before_entry cur 0).
Proof.
  revert i. induction rest as [|t rest IH]; intros i Hd Hne; [congruence|].
  assert (Hl : texts !! i = Some t).
  { rewrite <- (Nat.add_0_r i), <- lookup_drop, Hd. reflexivity. }
  assert (Hi : index texts (Z.of_nat i) = Some t).
  { unfold index. rewrite Nat2Z.id.
    destruct (0 <=? Z.of_nat i) eqn:E; [exact Hl|apply Z.leb_gt in E; lia]. }
  assert (Hd' : drop (S i) texts = rest).
  { replace (S i) with (i + 1)%nat by lia. rewrite <- drop_drop, Hd.
    reflexivity. }
  assert (Hlen : length texts = (i + S (length rest))%nat).
  { apply lookup_lt_Some in Hl. apply (f_equal length) in Hd.
    rewrite length_drop in Hd. cbn in Hd. lia. }
  cbn [steps_of foldr]. fold (cycle_steps t). fold (steps_of rest).
  rewrite run_add, (run_cycle cur _ t Hi).
  unfold next_textIndex, len. rewrite Hlen.
  destruct rest as [|t' rest'].
  - cbn [length foldr run].
    destruct (Z.of_nat (i + 1) <=? Z.of_nat i + 1) eqn:E;
      [reflexivity|apply Z.leb_gt in E; lia].
  - destruct (Z.of_nat (i + S (length (t' :: rest'))) <=? Z.of_nat i + 1) eqn:E;
      [apply Z.leb_le in E; cbn [length] in E; lia|].
    replace (Z.of_nat i + 1) with (Z.of_nat (S i)) by lia.
    apply IH; [exact Hd'|discriminate].
Qed.

Lemma run_period cur :
  texts <> [] ->
  run texts (period texts) (before_entry cur 0) = Normal (before_entry cur 0).
Proof. intros Hne. apply (run_rest cur texts 0); [reflexivity|exact Hne]. Qed.

Lemma run_snoc (k : nat) (w w1 w2 : World) :
  run texts k w = Normal w1 -> fire texts w1 = Normal w2 ->
  run texts (S k) w = Normal w2.
Proof.
  intros H1 H2. replace (S k) with (k + 1)%nat by lia.
  rewrite run_add, H1. cbn. now rewrite H2.
Qed.

(** Every reachable world is some firings away from the pause before the
    first entry. *)
Lemma reachable_run (dc : DomCache) (w : World) :
  typedTextSpan dc = Some [] ->
  Reachable texts dc w ->
  texts <> [] /\
  exists k, run texts (S k) (before_entry (cursorSpan dc) 0) = Normal w.
Proof.
  intros Hs Hr. induction Hr as [w Hw|w w' _ IH Hf].
  - destruct dc as [sink cur]. cbn in Hs. subst sink.
    unfold exec in Hw. rewrite (start_sink _ []) in Hw by reflexivity.
    split.
    + intros ->. rewrite type_no_entry in Hw by reflexivity. discriminate.
    + exists O. cbn [run]. unfold fire.
      destruct (type texts _) as [[[] w1]|e] eqn:E; [|discriminate].
      cbn [timers before_entry displaying callback timer call].
      unfold exec.
      change (set_timers [] _)
        with (init {| typedTextSpan := Some []; cursorSpan := cur |}).
      rewrite E. exact Hw.
  - destruct IH as [Hne [k Hk]]. split; [exact Hne|].
    exists (S k). exact (run_snoc _ _ _ _ Hk Hf).
Qed.

(** *** What is displayed does not steer the animation *)

Lemma erase_no_entry (w : World) :
  0 < charIndex w -> index texts (textIndex w) = None ->
  erase texts w = Throw TypeError.
Proof.
  intros Hc Ht.
  unfold erase, bind, gets, modify, member, ret, throw. cbn.
  apply Z.ltb_lt in Hc. rewrite Hc. cbn. now rewrite Ht.
Qed.

Lemma shape_call (f : Callback) (w v : World) :
  same_shape w v -> shape_related (call texts f w) (call texts f v).
Proof.
  intros (Hti & Hci & Htm & [r Hr] & [q Hq]).
  unfold renderedText in Hr, Hq. destruct f; cbn [call].
  - destruct (index texts (textIndex w)) as [t|] eqn:Ht.
    + assert (Ht' : index texts (textIndex v) = Some t) by now rewrite <- Hti.
      destruct (Z_lt_ge_dec (charIndex w) (len t)) as [Hlt|Hge].
      * rewrite (type_typing texts w t r Ht Hr Hlt).
        rewrite (type_typing texts v t q Ht' Hq) by lia.
        cbn. unfold same_shape, renderedText. cbn.
        rewrite Hti, Hci, Htm. repeat split; eexists; reflexivity.
      * rewrite (type_done texts w t Ht) by lia.
        rewrite (type_done texts v t Ht') by lia.
        cbn. unfold same_shape, renderedText. cbn.
        rewrite Hti, Hci, Htm, Hr, Hq. repeat split; eexists; reflexivity.
    + rewrite (type_no_entry texts w Ht).
      rewrite (type_no_entry texts v) by now rewrite <- Hti.
      exact I.
  - destruct (Z_lt_ge_dec 0 (charIndex w)) as [Hpos|Hz].
    + destruct (index texts (textIndex w)) as [t|] eqn:Ht.
      * assert (Ht' : index texts (textIndex v) = Some t)
          by now rewrite <- Hti.
        rewrite (erase_erasing texts w t r Ht Hr Hpos).
        rewrite (erase_erasing texts v t q Ht' Hq) by lia.
        cbn. unfold same_shape, renderedText. cbn.
        rewrite Hti, Hci, Htm. repeat split; eexists; reflexivity.
      * rewrite (erase_no_entry w Hpos Ht).
        rewrite (erase_no_entry v) by (try lia; now rewrite <- Hti).
        exact I.
    + rewrite (erase_done texts w) by lia.
      rewrite (erase_done texts v) by lia.
      cbn. unfold same_shape, renderedText. cbn.
      rewrite Hti, Htm, Hci, Hr, Hq. repeat split; eexists; reflexivity.
Qed.

Lemma shape_fire (w v : World) :
  same_shape w v -> shape_related_worlds (fire texts w) (fire texts v).
Proof.
  intros H. pose proof H as (Hti & Hci & Htm & Hr & Hq).
  unfold fire. rewrite <- Htm. destruct (timers w) as [|tm rest].
  - exact H.
  - assert (Hs : same_shape (set_timers rest w) (set_timers rest v)).
    { unfold same_shape. cbn. repeat split; assumption. }
    pose proof (shape_call (callback tm) _ _ Hs) as Hc.
    unfold exec, shape_related, shape_related_worlds in *.
    destruct (call texts (callback tm) (set_timers rest w)) as [[[] w1]|e1],
             (call texts (callback tm) (set_timers rest v)) as [[[] v1]|e2];
      exact Hc.
Qed.

Lemma shape_run (n : nat) (w v : World) :
  same_shape w v -> shape_related_worlds (run texts n w) (run texts n v).
Proof.
  revert w v. induction n as [|n IH]; intros w v H; [exact H|].
  cbn [run]. pose proof (shape_fire w v H) as Hf.
  unfold shape_related_worlds in Hf.
  destruct (fire texts w) as [w1|e1], (fire texts v) as [v1|e2];
    try contradiction; [now apply IH|exact I].
Qed.

(** Every world reached from a page corresponds to one reached from the
    page with its sink emptied. *)
Lemma reachable_shape (dc : DomCache) (r : jsstring) (w : World) :
  typedTextSpan dc = Some r ->
  Reachable texts dc w ->
  exists w0, Reachable texts (emptied dc) w0 /\ same_shape w w0.
Proof.
  intros Hs Hr. induction Hr as [w Hw|w w' _ [w0 [IH0 IHs]] Hf].
  - assert (Hi : same_shape (init dc) (init (emptied dc))).
    { unfold same_shape, renderedText. cbn. rewrite Hs.
      repeat split; eexists; reflexivity. }
    pose proof (shape_call CbType _ _ Hi) as Hc. cbn [call] in Hc.
    unfold exec in Hw. rewrite (start_sink dc r Hs) in Hw.
    unfold shape_related in Hc.
    destruct (type texts (init dc)) as [[[] w1]|e1]; [|discriminate].
    injection Hw as <-.
    destruct (type texts (init (emptied dc))) as [[[] v1]|e2] eqn:E;
      [|contradiction].
    exists v1. split; [|exact Hc]. apply reach_start. unfold exec.
    rewrite (start_sink (emptied dc) [] eq_refl). now rewrite E.
  - pose proof (shape_fire w w0 IHs) as Hc. rewrite Hf in Hc.
    unfold shape_related_worlds in Hc.
    destruct (fire texts w0) as [v1|e2] eqn:E; [|contradiction].
    exists v1. split; [|exact Hc]. exact (reach_fire texts _ w0 v1 IH0 E).
Qed.

Lemma periodic_empty (dc : DomCache) (w : World) :
  typedTextSpan dc = Some [] ->
  Reachable texts dc w ->
  run texts (period texts) w = Normal w.
Proof.
  intros Hs Hr. destruct (reachable_run dc w Hs Hr) as [Hne [k Hk]].
  pose proof (run_add (S k) (period texts) (before_entry (cursorSpan dc) 0))
    as H1. rewrite Hk in H1. rewrite <- H1.
  replace (S k + period texts)%nat with (period texts + S k)%nat by lia.
  rewrite run_add, (run_period _ Hne). exact Hk.
Qed.

(** C6 (amended). Whatever the sink holds: from the pause before an
    entry, [textIndex] keeps its value through all firings of the entry's
    cycle but the last, which moves it to
    [(textIndex + 1) mod len(texts)]; and after one pass over the
    playlist ([len(texts)] full cycles) every reachable world has its
    [textIndex], its [charIndex] and its pending timer back.  If the sink
    is empty when the script starts, the whole world is back, so whatever
    is displayed after [k] further firings is displayed again [period]
    firings later. *)
Theorem cycle_periodic (dc : DomCache) (r : jsstring) (w : World) :
  typedTextSpan dc = Some r ->
  Reachable texts dc w ->
  (forall v ti t, index texts ti = Some t ->
     same_shape v (before_entry (cursorSpan dc) ti) ->
     (forall k, (k < cycle_steps t)%nat ->
        exists v', run texts k v = Normal v' /\ textIndex v' = ti) /\
     (exists v', run texts (cycle_steps t) v = Normal v' /\
                 textIndex v' = (ti + 1) mod len texts /\
                 charIndex v' = 0)) /\
  (exists w', run texts (period texts) w = Normal w' /\
              textIndex w' = textIndex w /\ charIndex w' = charIndex w /\
              timers w' = timers w) /\
  (r = [] ->
   run texts (period texts) w = Normal w /\
   (forall k, run texts (k + period texts) w = run texts k w) /\
   (forall k, map_completion renderedText (run texts (k + period texts) w) =
              map_completion renderedText (run texts k w))).
Proof.
  intros Hs Hr. split; [|split].
  - intros v ti t Ht Hv. split.
    + intros k Hlt.
      destruct (run_within_cycle k (cursorSpan dc) ti t Ht Hlt)
        as (u & Hu & Hti).
      pose proof (shape_run k _ _ Hv) as Hk. rewrite Hu in Hk.
      unfold shape_related_worlds in Hk.
      destruct (run texts k v) as [v'|e]; [|contradiction].
      exists v'. split; [reflexivity|]. destruct Hk as (H1 & _). congruence.
    + pose proof (shape_run (cycle_steps t) _ _ Hv) as Hk.
      rewrite (run_cycle (cursorSpan dc) ti t Ht) in Hk.
      unfold shape_related_worlds in Hk.
      destruct (run texts (cycle_steps t) v) as [v'|e]; [|contradiction].
      exists v'. split; [reflexivity|]. destruct Hk as (H1 & H2 & _).
      rewrite H1, H2. cbn.
      split; [|reflexivity].
      apply next_textIndex_mod. exact (index_Some_range _ _ _ Ht).
  - destruct (reachable_shape dc r w Hs Hr) as (w0 & Hr0 & Hw).
    pose proof (shape_run (period texts) _ _ Hw) as Hk.
    rewrite (periodic_empty (emptied dc) w0 eq_refl Hr0) in Hk.
    unfold shape_related_worlds in Hk.
    destruct (run texts (period texts) w) as [w'|e]; [|contradiction].
    exists w'. split; [reflexivity|].
    destruct Hk as (H1 & H2 & H3 & _), Hw as (G1 & G2 & G3 & _).
    repeat split; congruence.
  - intros ->.
    pose proof (periodic_empty dc w Hs Hr) as Hp.
    assert (Hk : forall k, run texts (k + period texts) w = run texts k w).
    { intros k.
      replace (k + period texts)%nat with (period texts + k)%nat by lia.
      now rewrite run_add, Hp. }
    split; [exact Hp|]. split; [exact Hk|]. intros k. now rewrite Hk.
Qed.

End Cycle.

(** ** Starting, and the one-entry playlist *)

Ltac crunch :=
  repeat (progress (unfold AppJs.get_textContent, AppJs.put_textContent,
                      AppJs.setTimeout, Full.get_textContent,
                      Full.put_textContent, Full.setTimeout, bind, gets,
                      modify, member, ret, throw, exec, map_completion; cbn)).

Ltac full_step :=
  repeat (progress (unfold Full.type, bind, gets, modify, member, ret,
                      throw, Full.get_textContent, Full.put_textContent,
                      Full.setTimeout; cbn)).

Lemma full_type_typing (texts : list jsstring) (w : Full.World)
  (t r : jsstring) :
  index texts (Full.textIndex w) = Some t ->
  Full.typedTextSpan w = Some r ->
  Full.charIndex w < len t ->
  Full.type texts w =
    Normal (tt, Full.set_timers (Full.timers w ++ [timer CbType typingDelay])
                  (Full.set_charIndex (Full.charIndex w + 1)
                     (Full.set_typedTextSpan
                        (Some (r ++ charAt t (Full.charIndex w))) w))).
Proof.
  intros Ht Hr Hc. full_step. rewrite Ht.
  apply Z.ltb_lt in Hc. rewrite Hc. full_step. rewrite Hr. full_step.
  rewrite Ht. full_step. rewrite Hr. reflexivity.
Qed.

Lemma full_type_done (texts : list jsstring) (w : Full.World) (t : jsstring) :
  index texts (Full.textIndex w) = Some t ->
  len t <= Full.charIndex w ->
  Full.type texts w =
    Normal (tt, Full.set_timers (Full.timers w ++ [timer CbErase newTextDelay])
                  w).
Proof.
  intros Ht Hc. full_step. rewrite Ht.
  apply Z.ltb_ge in Hc. rewrite Hc. reflexivity.
Qed.

Lemma full_type_no_entry (texts : list jsstring) (w : Full.World) :
  index texts (Full.textIndex w) = None ->
  Full.type texts w = Throw TypeError.
Proof. intros Ht. full_step. now rewrite Ht. Qed.

Lemma charAt_first (t : jsstring) : charAt t 0 = take 1 t.
Proof. destruct t; reflexivity. Qed.

(** C4. When the page has no sink, [start] returns normally, leaves the
    state as declared, schedules nothing, and no later turn of the event
    loop does anything.  When the sink exists, [start] takes the first
    typing step from [textIndex = 0], [charIndex = 0]: it returns with
    the first code unit of the first entry appended to the sink,
    [charIndex = 1] and [type] pending after 150 ms (for an empty first
    entry: nothing appended and [erase] pending after 2000 ms); with no
    first entry at all, which the data model excludes, that first step
    fails.  Both scripts behave in the same way. *)
Theorem start_guard (texts : list jsstring) (dc : AppJs.DomCache)
  (cursor : option jsstring) :
  match AppJs.typedTextSpan dc with
  | None =>
      AppJs.start texts (AppJs.init dc) = Normal (tt, AppJs.init dc) /\
      (forall n, AppJs.run texts n (AppJs.init dc) = Normal (AppJs.init dc)) /\
      Full.start texts (Full.init None cursor) =
        Normal (tt, Full.init None cursor)
  | Some r =>
      match index texts 0 with
      | Some t =>
          exists wa wf,
            AppJs.start texts (AppJs.init dc) = Normal (tt, wa) /\
            Full.start texts (Full.init (Some r) cursor) = Normal (tt, wf) /\
            observe_app wa = first_observation r t /\
            observe_full wf = first_observation r t
      | None =>
          AppJs.start texts (AppJs.init dc) = Throw TypeError /\
          Full.start texts (Full.init (Some r) cursor) = Throw TypeError
      end
  end /\
  AppJs.textIndex (AppJs.init dc) = 0 /\
  AppJs.charIndex (AppJs.init dc) = 0 /\
  AppJs.timers (AppJs.init dc) = [] /\
  Full.timers (Full.init (AppJs.typedTextSpan dc) cursor) = [].
Proof.
  split; [|repeat split].
  destruct (AppJs.typedTextSpan dc) as [r|] eqn:Hs.
  - rewrite (start_sink texts dc r Hs).
    assert (Hf : Full.start texts (Full.init (Some r) cursor) =
                 Full.type texts (Full.init (Some r) cursor))
      by reflexivity.
    rewrite Hf. destruct (index texts 0) as [t|] eqn:Ht.
    + unfold first_observation. destruct (0 <? len t) eqn:L.
      * apply Z.ltb_lt in L. eexists. eexists. split.
        { apply (type_typing texts (AppJs.init dc) t r Ht Hs L). }
        split.
        { apply (full_type_typing texts (Full.init (Some r) cursor) t r Ht
                   eq_refl L). }
        unfold observe_app, observe_full. cbn.
        rewrite charAt_first. split; reflexivity.
      * apply Z.ltb_ge in L. eexists. eexists. split.
        { apply (type_done texts (AppJs.init dc) t Ht). cbn. lia. }
        split.
        { apply (full_type_done texts (Full.init (Some r) cursor) t Ht).
          cbn. lia. }
        unfold observe_app, observe_full. cbn. rewrite Hs.
        split; reflexivity.
    + split; [apply type_no_entry; exact Ht|].
      apply full_type_no_entry. exact Ht.
  - split; [exact (start_no_sink texts dc Hs)|]. split; [|reflexivity].
    induction n as [|n IH]; [reflexivity|]. cbn. exact IH.
Qed.



(** ** The two scripts *)

(** C8. The animation of [src/app.js] and the one of the fuller script
    are indistinguishable: from worlds in which an observer sees the same
    thing (counters, displayed text, pending timers), [type] in the one
    and [type] in the other both throw, or both return worlds in which
    the observer again sees the same thing; likewise [erase], and the
    guarded first call. *)
Theorem scripts_agree (texts : list jsstring) (wa : AppJs.World)
  (wf : Full.World) :
  observe_app wa = observe_full wf ->
  map_completion observe_app (exec (AppJs.type texts) wa) =
    map_completion observe_full (exec (Full.type texts) wf) /\
  map_completion observe_app (exec (AppJs.erase texts) wa) =
    map_completion observe_full (exec (Full.erase texts) wf) /\
  map_completion observe_app (exec (AppJs.start texts) wa) =
    map_completion observe_full (exec (Full.start texts) wf).
Proof.
  destruct wa as [[sink cur] ti ci tms], wf as [ti' ci' sink' cur' tms'].
  unfold observe_app, observe_full. cbn. intros [= <- <- <- <-].
  assert (Ht :
    map_completion observe_app
      (exec (AppJs.type texts)
         (AppJs.Build_World (AppJs.Build_DomCache sink cur) ti ci tms)) =
    map_completion observe_full
      (exec (Full.type texts) (Full.Build_World ti ci sink cur' tms))).
  { unfold AppJs.type, Full.type. crunch.
    destruct (index texts ti) as [t|] eqn:E; crunch; [|reflexivity].
    destruct (ci <? len t); crunch; [|reflexivity].
    destruct sink; crunch; rewrite ?E; crunch; reflexivity. }
  split; [exact Ht|split].
  - unfold AppJs.erase, Full.erase. crunch.
    destruct (0 <? ci); crunch.
    + destruct (index texts ti) as [t|] eqn:E; crunch; [|reflexivity].
      destruct sink; crunch; rewrite ?E; crunch; reflexivity.
    + destruct (len texts <=? ti + 1); crunch; reflexivity.
  - destruct sink; [exact Ht|reflexivity].
Qed.

(** ** Patterns *)

Section Patterns.

Lemma lang_seq_inv r1 r2 s :
  lang (RSeq r1 r2) s ->
  exists s1 s2, s = s1 ++ s2 /\ lang r1 s1 /\ lang r2 s2.
Proof. inversion 1; subst. eauto. Qed.

Lemma lang_class_inv p s :
  lang (RClass p) s -> exists c, s = [c] /\ p c = true.
Proof. inversion 1; subst. eauto. Qed.

Lemma lang_alt_inv r1 r2 s :
  lang (RAlt r1 r2) s -> lang r1 s \/ lang r2 s.
Proof. inversion 1; subst; auto. Qed.

Lemma nullable_lang (r : Regex) : nullable r = true <-> lang r [].
Proof.
  induction r as [| |p|r1 IH1 r2 IH2|r1 IH1 r2 IH2|r IH]; cbn.
  - split; [discriminate|inversion 1].
  - split; [constructor|reflexivity].
  - split; [discriminate|inversion 1].
  - rewrite andb_true_iff, IH1, IH2. split.
    + intros [H1 H2]. exact (lang_seq r1 r2 [] [] H1 H2).
    + intros H. apply lang_seq_inv in H as (s1 & s2 & E & H1 & H2).
      destruct s1; [|discriminate]. destruct s2; [|discriminate]. now split.
  - rewrite orb_true_iff, IH1, IH2. split.
    + intros [H|H]; [now apply lang_alt_l|now apply lang_alt_r].
    + apply lang_alt_inv.
  - split; [constructor|reflexivity].
Qed.

Lemma lang_star_cons_inv r c s :
  lang (RStar r) (c :: s) ->
  exists s1 s2, s = s1 ++ s2 /\ lang r (c :: s1) /\ lang (RStar r) s2.
Proof.
  intros H. remember (RStar r) as r' eqn:Er. remember (c :: s) as s' eqn:Es.
  revert s Es.
  induction H as [| | | | | |r0 s1 s2 H1 _ H2 IH2]; intros u Es;
    try discriminate.
  injection Er as ->. destruct s1 as [|c1 s1].
  - apply IH2; [reflexivity|exact Es].
  - cbn in Es. injection Es as -> <-. eauto.
Qed.

Lemma deriv_lang (r : Regex) (c : code_unit) (s : jsstring) :
  lang (deriv c r) s <-> lang r (c :: s).
Proof.
  revert s.
  induction r as [| |p|r1 IH1 r2 IH2|r1 IH1 r2 IH2|r IH]; intros s; cbn.
  - split; inversion 1.
  - split; inversion 1.
  - destruct (p c) eqn:P; split.
    + inversion 1; subst. now constructor.
    + inversion 1; subst. constructor.
    + inversion 1.
    + inversion 1; subst. congruence.
  - assert (Hl : lang (RSeq (deriv c r1) r2) s ->
                 lang (RSeq r1 r2) (c :: s)).
    { intros H. apply lang_seq_inv in H as (s1 & s2 & -> & H1 & H2).
      apply IH1 in H1. exact (lang_seq r1 r2 (c :: s1) s2 H1 H2). }
    destruct (nullable r1) eqn:N; split.
    + intros H. apply lang_alt_inv in H as [H|H]; [now apply Hl|].
      apply IH2 in H. apply nullable_lang in N.
      exact (lang_seq r1 r2 [] (c :: s) N H).
    + intros H. apply lang_seq_inv in H as (s1 & s2 & E & H1 & H2).
      destruct s1 as [|c1 s1].
      * cbn in E. subst s2. apply lang_alt_r. now apply IH2.
      * cbn in E. injection E as <- ->. apply lang_alt_l.
        apply lang_seq; [now apply IH1|exact H2].
    + exact Hl.
    + intros H. apply lang_seq_inv in H as (s1 & s2 & E & H1 & H2).
      destruct s1 as [|c1 s1].
      * apply nullable_lang in H1. congruence.
      * cbn in E. injection E as <- ->.
        apply lang_seq; [now apply IH1|exact H2].
  - split.
    + intros H. apply lang_alt_inv in H as [H|H];
        [apply lang_alt_l; now apply IH1|apply lang_alt_r; now apply IH2].
    + intros H. apply lang_alt_inv in H as [H|H];
        [apply lang_alt_l; now apply IH1|apply lang_alt_r; now apply IH2].
  - split.
    + intros H. apply lang_seq_inv in H as (s1 & s2 & -> & H1 & H2).
      apply IH in H1. exact (lang_star_cons r (c :: s1) s2 H1 H2).
    + intros H. apply lang_star_cons_inv in H as (s1 & s2 & -> & H1 & H2).
      apply lang_seq; [now apply IH|exact H2].
Qed.

(** [test] decides the language of the pattern. *)
Lemma test_lang (r : Regex) (s : jsstring) : test r s = true <-> lang r s.
Proof.
  revert r. induction s as [|c s IH]; intros r; cbn.
  - apply nullable_lang.
  - rewrite IH. apply deriv_lang.
Qed.

Lemma lang_star_class p s :
  lang (RStar (RClass p)) s <-> Forall (fun c => p c = true) s.
Proof.
  split.
  - intros H. remember (RStar (RClass p)) as r eqn:Er.
    induction H as [| | | | | |r0 s1 s2 H1 _ H2 IH2]; try discriminate.
    + constructor.
    + injection Er as ->.
      apply lang_class_inv in H1 as (c & -> & Hc).
      constructor; [exact Hc|]. now apply IH2.
  - induction 1 as [|c s Hc _ IH]; [constructor|].
    exact (lang_star_cons _ [c] s (lang_class p c Hc) IH).
Qed.

Lemma lang_plus_class p s :
  lang (RPlus (RClass p)) s <->
  s <> [] /\ Forall (fun c => p c = true) s.
Proof.
  unfold RPlus. split.
  - intros H. apply lang_seq_inv in H as (s1 & s2 & -> & H1 & H2).
    apply lang_class_inv in H1 as (c & -> & Hc).
    apply lang_star_class in H2. split; [discriminate|].
    constructor; assumption.
  - intros [Hne H]. destruct H as [|c s Hc Hs]; [contradiction|].
    apply (lang_seq _ _ [c] s); [now constructor|].
    now apply lang_star_class.
Qed.

Lemma lang_unit (x : code_unit) (s : jsstring) :
  lang (RClass (N.eqb x)) s <-> s = [x].
Proof.
  split.
  - intros H. apply lang_class_inv in H as (c & -> & Hc).
    apply N.eqb_eq in Hc. now subst.
  - intros ->. constructor. apply N.eqb_refl.
Qed.

(** The pattern of the form accepts exactly the e-mail shapes. *)
Lemma emailPattern_shape (v : jsstring) :
  test Form.emailPattern v = true <-> Form.email_shape v.
Proof.
  rewrite test_lang. unfold Form.emailPattern, Form.email_shape, Form.plain.
  split.
  - intros H.
    apply lang_seq_inv in H as (a & s1 & -> & Ha & H).
    apply lang_seq_inv in H as (x & s2 & -> & Hx & H).
    apply lang_seq_inv in H as (b & s3 & -> & Hb & H).
    apply lang_seq_inv in H as (y & c & -> & Hy & Hc).
    apply lang_unit in Hx, Hy. subst x y.
    apply lang_plus_class in Ha, Hb, Hc.
    exists a, b, c. repeat split; tauto.
  - intros (a & b & c & -> & Ha & Hb & Hc).
    apply lang_seq; [now apply lang_plus_class|].
    apply lang_seq; [now apply lang_unit|].
    apply lang_seq; [now apply lang_plus_class|].
    apply lang_seq; [now apply lang_unit|].
    now apply lang_plus_class.
Qed.

End Patterns.

(** ** The contact form *)

Section ContactForm.

Import Form.

Lemma lookup_rule_inherited (k : jsstring) :
  k ∈ inherited -> lookup_rule validationRules k = None.
Proof.
  intros H. unfold inherited in H.
  repeat (apply elem_of_cons in H as [->|H]; [reflexivity|]).
  apply elem_of_nil in H. contradiction.
Qed.

Lemma validateField_passes (f : Field) :
  fst (validateField f) = true <-> passes f.
Proof.
  unfold validateField, passes, rule_for. cbv zeta.
  set (v := trim (value f)). clearbody v.
  unfold validationRules, lookup_rule.
  destruct (decide (lit "name" = name f)) as [E|N1].
  { rewrite <- E. unfold too_short, mismatch. cbn [minLength pattern].
    change (negb (2 =? 0)) with true. cbn [andb].
    destruct (len v <? 2) eqn:L; cbn [fst].
    - apply Z.ltb_lt in L. split; [discriminate|]. intros [H _].
      specialize (H eq_refl). lia.
    - apply Z.ltb_ge in L. split; [|reflexivity]. intros _.
      repeat split; intros; try discriminate; lia. }
  destruct (decide (lit "email" = name f)) as [E|N2].
  { rewrite <- E. unfold too_short, mismatch. cbn [minLength pattern].
    destruct (test emailPattern v) eqn:T; cbn [negb fst].
    - split; [|reflexivity]. intros _.
      repeat split; intros; try discriminate.
      now apply emailPattern_shape.
    - split; [discriminate|]. intros (_ & H & _).
      specialize (H eq_refl). apply emailPattern_shape in H. congruence. }
  destruct (decide (lit "subject" = name f)) as [E|N3].
  { rewrite <- E. unfold too_short, mismatch. cbn [minLength pattern].
    change (negb (5 =? 0)) with true. cbn [andb].
    destruct (len v <? 5) eqn:L; cbn [fst].
    - apply Z.ltb_lt in L. split; [discriminate|]. intros (_ & _ & H & _).
      specialize (H eq_refl). lia.
    - apply Z.ltb_ge in L. split; [|reflexivity]. intros _.
      repeat split; intros; try discriminate; lia. }
  destruct (decide (lit "message" = name f)) as [E|N4].
  { rewrite <- E. unfold too_short, mismatch. cbn [minLength pattern].
    change (negb (10 =? 0)) with true. cbn [andb].
    destruct (len v <? 10) eqn:L; cbn [fst].
    - apply Z.ltb_lt in L. split; [discriminate|]. intros (_ & _ & _ & H).
      specialize (H eq_refl). lia.
    - apply Z.ltb_ge in L. split; [|reflexivity]. intros _.
      repeat split; intros; try discriminate; lia. }
  assert (Hp : (name f = lit "name" -> 2 <= len v) /\
               (name f = lit "email" -> email_shape v) /\
               (name f = lit "subject" -> 5 <= len v) /\
               (name f = lit "message" -> 10 <= len v)).
  { repeat split; intros E; symmetry in E; contradiction. }
  destruct (decide (name f ∈ inherited)); cbn [fst]; tauto.
Qed.

Lemma all_valid_passes (fs : list Field) :
  forallb fst (map validateField fs) = true <-> Forall passes fs.
Proof.
  induction fs as [|f fs IH]; cbn.
  - split; [constructor|reflexivity].
  - rewrite andb_true_iff, IH, validateField_passes. split.
    + intros [H1 H2]. now constructor.
    + intros H. inversion H; subst. now split.
Qed.


Ltac form_step :=
  repeat (progress (unfold handleFormSubmission, showNotification,
                      hideNotification, schedule, call, bind, gets, modify,
                      member, ret, throw; cbn)).

Lemma showNotification_spec (msg type : jsstring) (w : World) :
  showNotification msg type w =
    Normal (tt,
      {| fields := fields w; submitButton := submitButton w;
         notification := Some (fresh_banner (created w) msg type);
         created := S (created w);
         tasks := (tasks w ++ [task AnimationFrame (ShowBanner (created w))])
                    ++ [task (Timeout 5000) (HideBanner (created w))] |}).
Proof. form_step. reflexivity. Qed.





(** Without a [button[type="submit"]] in the form, a valid submission
    ends in a [TypeError] once the fields have been checked. *)
Remark submission_without_button (w : World) :
  submitButton w = None -> Forall passes (fields w) ->
  handleFormSubmission w = Throw TypeError.
Proof.
  intros Hb Hall. apply all_valid_passes in Hall.
  unfold handleFormSubmission, bind, gets, modify. cbn. rewrite Hall. cbn.
  unfold bind, gets, member, throw. cbn. now rewrite Hb.
Qed.

End ContactForm.

(** ** The properties at sample inputs *)

Section Samples.

Import AppJs.

Ltac by_evaluation :=
  unfold hi_texts, hi_page, hi_one, hi_typed, hi_pause, init, displaying,
    len;
  cbn; lia.

Lemma hi_start_in_bounds : in_bounds hi_texts (init hi_page).
Proof.
  split; [by_evaluation|]. exists (lit "Hi"). split; [reflexivity|by_evaluation].
Qed.

Lemma hi_pause_invariant : invariant hi_texts hi_pause.
Proof.
  split.
  - split; [by_evaluation|]. exists (lit "Hi"). split; [reflexivity|by_evaluation].
  - exists (lit "Hi"). split; reflexivity.
Qed.

Lemma hi_one_reachable : Reachable hi_texts hi_page hi_one.
Proof. apply reach_start. reflexivity. Qed.

Lemma rendered_prefix_reachable_witness :
  (typedTextSpan hi_page = Some [] /\ Reachable hi_texts hi_page hi_one) /\
  rendered_prefix hi_texts hi_one.
Proof.
  split; [split; [reflexivity|exact hi_one_reachable]|].
  apply (rendered_prefix_reachable hi_texts hi_page hi_one);
    [reflexivity|exact hi_one_reachable].
Defined.

Lemma type_step_spec_witness :
  (index hi_texts (textIndex (init hi_page)) = Some (lit "Hi") /\
   renderedText (init hi_page) = Some [] /\
   0 <= charIndex (init hi_page) /\
   charIndex (init hi_page) < len (lit "Hi") /\
   index hi_texts (textIndex hi_typed) = Some (lit "Hi") /\
   renderedText hi_typed = Some (lit "Hi") /\
   0 <= charIndex hi_typed /\
   charIndex hi_typed = len (lit "Hi")) /\
  (exists c w',
     index (lit "Hi") (charIndex (init hi_page)) = Some c /\
     type hi_texts (init hi_page) = Normal (tt, w') /\
     renderedText w' = Some ([] ++ [c]) /\
     charIndex w' = charIndex (init hi_page) + 1 /\
     textIndex w' = textIndex (init hi_page) /\
     timers w' = timers (init hi_page) ++ [timer CbType 150]) /\
  type hi_texts hi_typed =
    Normal (tt, set_timers (timers hi_typed ++ [timer CbErase 2000]) hi_typed).
Proof.
  split; [repeat split; by_evaluation|]. split.
  - apply (type_step_spec hi_texts (init hi_page) (lit "Hi") []);
      [reflexivity|reflexivity|by_evaluation|by_evaluation].
  - apply (type_step_spec hi_texts hi_typed (lit "Hi") (lit "Hi"));
      [reflexivity|reflexivity|by_evaluation|reflexivity].
Defined.

Lemma erase_step_spec_witness :
  (in_bounds hi_texts hi_smeared /\
   index hi_texts (textIndex hi_smeared) = Some (lit "Hi") /\
   renderedText hi_smeared = Some (lit "XHi") /\
   0 < charIndex hi_smeared) /\
  exists w',
    erase hi_texts hi_smeared = Normal (tt, w') /\
    renderedText w' =
      Some (take (Z.to_nat (charIndex hi_smeared - 1)) (lit "Hi")) /\
    (lit "XHi" = take (Z.to_nat (charIndex hi_smeared)) (lit "Hi") ->
     renderedText w' =
       Some (take (Z.to_nat (charIndex hi_smeared - 1)) (lit "XHi"))) /\
    charIndex w' = charIndex hi_smeared - 1 /\
    textIndex w' = textIndex hi_smeared /\
    timers w' = timers hi_smeared ++ [timer CbErase 100].
Proof.
  assert (Hb : in_bounds hi_texts hi_smeared).
  { split; [unfold len; cbn; lia|]. exists (lit "Hi").
    split; [reflexivity|unfold len; cbn; lia]. }
  split; [split; [exact Hb|split; [reflexivity|split; [reflexivity|cbn; lia]]]|].
  apply (erase_step_spec hi_texts hi_smeared (lit "Hi") (lit "XHi"));
    [exact Hb|reflexivity|reflexivity|cbn; lia].
Defined.


Lemma steps_preserve_bounds_witness :
  (in_bounds hi_texts (init hi_page) /\
   is_Some (renderedText (init hi_page))) /\
  exists w',
    type hi_texts (init hi_page) = Normal (tt, w') /\ in_bounds hi_texts w'.
Proof.
  split; [split; [exact hi_start_in_bounds|eexists; reflexivity]|].
  apply (steps_preserve_bounds hi_texts (init hi_page));
    [exact hi_start_in_bounds|eexists; reflexivity].
Defined.

Lemma prefilled_one_reachable :
  Reachable hi_texts prefilled_page prefilled_one.
Proof. apply reach_start. reflexivity. Qed.

Lemma cycle_periodic_witness :
  (typedTextSpan prefilled_page = Some (lit "X") /\
   Reachable hi_texts prefilled_page prefilled_one) /\
  exists w',
    run hi_texts (period hi_texts) prefilled_one = Normal w' /\
    textIndex w' = textIndex prefilled_one /\
    charIndex w' = charIndex prefilled_one /\
    timers w' = timers prefilled_one.
Proof.
  split; [split; [reflexivity|exact prefilled_one_reachable]|].
  apply (cycle_periodic hi_texts prefilled_page (lit "X") prefilled_one);
    [reflexivity|exact prefilled_one_reachable].
Defined.

Lemma scripts_agree_witness :
  observe_app (init hi_page) = observe_full (Full.init (Some []) None) /\
  map_completion observe_app (exec (type hi_texts) (init hi_page)) =
    map_completion observe_full
      (exec (Full.type hi_texts) (Full.init (Some []) None)).
Proof.
  split; [reflexivity|].
  apply (scripts_agree hi_texts (init hi_page) (Full.init (Some []) None)).
  reflexivity.
Defined.



Example email_shapes :
  test Form.emailPattern (lit "ada@example.org") = true /\
  test Form.emailPattern (lit "ada@example") = false /\
  test Form.emailPattern (lit "ada lovelace@example.org") = false /\
  test Form.emailPattern (lit "@example.org") = false /\
  test Form.emailPattern (lit "a@b@example.org") = false.
Proof. repeat split; vm_compute; reflexivity. Qed.

(** One pass over the playlist of the site takes 96 firings. *)
Example site_period : period site_texts = 96%nat.
Proof. reflexivity. Qed.

(** The first call of [type] appends to whatever the sink holds: in a
    page whose sink is not empty, the text displayed while the first
    entry is typed is not a prefix of that entry. *)
Remark prefilled_sink_shows_through :
  exists w,
    start hi_texts (init prefilled_page) = Normal (tt, w) /\
    renderedText w = Some (lit "XH") /\
    ~ rendered_prefix hi_texts w.
Proof.
  eexists. split; [reflexivity|]. split; [reflexivity|].
  intros (t & Ht & Hp). vm_compute in Ht. injection Ht as <-.
  vm_compute in Hp. discriminate.
Qed.

End Samples.

(** * Further properties of the animation *)

Section AnimationMore.

Import AppJs.

Variable texts : list jsstring.

(** Within bounds and with a sink, each callback returns, stays within
    bounds, keeps the sink and leaves one more timer pending. *)
Lemma bounds_call (f : Callback) (w : World) :
  in_bounds texts w -> is_Some (renderedText w) ->
  exists w' tm,
    call texts f w = Normal (tt, w') /\ in_bounds texts w' /\
    is_Some (renderedText w') /\ timers w' = timers w ++ [tm].
Proof.
  intros [Hti (t & Ht & Hci)] [r Hr]. unfold renderedText in Hr.
  destruct f; cbn [call].
  - destruct (Z_lt_ge_dec (charIndex w) (len t)) as [Hlt|Hge].
    + eexists. eexists. split; [apply (type_typing texts w t r Ht Hr Hlt)|].
      split; [|split; [eexists; reflexivity|reflexivity]].
      split; [exact Hti|]. exists t. cbn. split; [exact Ht|lia].
    + eexists. eexists. split; [apply (type_done texts w t Ht); lia|].
      split; [|split; [exists r; exact Hr|reflexivity]].
      split; [exact Hti|]. exists t. cbn. split; [exact Ht|lia].
  - destruct (Z_lt_ge_dec 0 (charIndex w)) as [Hpos|Hz].
    + eexists. eexists. split; [apply (erase_erasing texts w t r Ht Hr Hpos)|].
      split; [|split; [eexists; reflexivity|reflexivity]].
      split; [exact Hti|]. exists t. cbn. split; [exact Ht|lia].
    + eexists. eexists. split; [apply (erase_done texts w); lia|].
      split; [|split; [exists r; exact Hr|reflexivity]].
      pose proof (next_textIndex_range texts _ Hti) as Hn.
      destruct (index_in_range texts _ Hn) as [t' Ht'].
      split; [exact Hn|]. exists t'. cbn. split; [exact Ht'|].
      unfold len. lia.
Qed.

Lemma bounds_run (n : nat) (w : World) (tm : Timer) :
  in_bounds texts w -> is_Some (renderedText w) -> timers w = [tm] ->
  exists w' tm',
    run texts n w = Normal w' /\ in_bounds texts w' /\
    is_Some (renderedText w') /\ timers w' = [tm'].
Proof.
  revert w tm. induction n as [|n IH]; intros w tm Hb Hs Ht.
  - exists w, tm. split; [reflexivity|]. split; [exact Hb|].
    split; [exact Hs|exact Ht].
  - cbn [run]. unfold fire. rewrite Ht.
    destruct (bounds_call (callback tm) (set_timers [] w) Hb Hs)
      as (w1 & tm1 & Hc & Hb1 & Hs1 & Ht1).
    unfold exec. rewrite Hc. exact (IH w1 tm1 Hb1 Hs1 Ht1).
Qed.

Lemma nonempty_first (l : list jsstring) :
  l <> [] -> exists t, index l 0 = Some t.
Proof. destruct l as [|t l]; [contradiction|]. intros _. now exists t. Qed.

(** X1. With a sink in the page and a playlist that is not empty, the
    animation never stops and never fails, whatever the sink holds at the
    start: the first call of [type] returns, and so does every later
    firing, each leaving the counters within bounds and exactly one
    timer pending. *)
Theorem animation_never_stops (dc : DomCache) (r : jsstring) :
  texts <> [] ->
  typedTextSpan dc = Some r ->
  exists w1,
    exec (start texts) (init dc) = Normal w1 /\
    forall n, exists w' tm,
      run texts n w1 = Normal w' /\ in_bounds texts w' /\
      timers w' = [tm].
Proof.
  intros Hne Hs. destruct (nonempty_first texts Hne) as [t Ht].
  assert (Hb : in_bounds texts (init dc)).
  { pose proof (index_Some_range _ _ _ Ht) as R. split; [exact R|].
    exists t. cbn. split; [exact Ht|unfold len; lia]. }
  assert (Hr : is_Some (renderedText (init dc))) by (exists r; exact Hs).
  destruct (bounds_call CbType (init dc) Hb Hr)
    as (w1 & tm1 & Hc & Hb1 & Hs1 & Ht1).
  exists w1. split.
  - unfold exec. rewrite (start_sink texts dc r Hs).
    cbn [call] in Hc. now rewrite Hc.
  - intros n. destruct (bounds_run n w1 tm1 Hb1 Hs1 Ht1)
      as (w' & tm' & Hrun & Hb' & _ & Ht').
    exists w', tm'. split; [exact Hrun|]. split; [exact Hb'|exact Ht'].
Qed.

(** X2. With a sink in the page, the first call of [type] fails with a
    [TypeError] exactly when the playlist is empty. *)
Theorem start_fails_iff_empty (dc : DomCache) (r : jsstring) :
  typedTextSpan dc = Some r ->
  (exec (start texts) (init dc) = Throw TypeError <-> texts = []).
Proof.
  intros Hs. unfold exec. rewrite (start_sink texts dc r Hs). split.
  - intros H. destruct texts as [|t l] eqn:E; [reflexivity|].
    assert (Hb : in_bounds (t :: l) (init dc)).
    { split; [unfold len; cbn; lia|]. exists t. cbn.
      split; [reflexivity|unfold len; lia]. }
    assert (Hr : is_Some (renderedText (init dc))) by (exists r; exact Hs).
    rewrite <- E in H, Hb.
    destruct (bounds_call CbType (init dc) Hb Hr) as (w1 & tm1 & Hc & _).
    cbn [call] in Hc. rewrite Hc in H. discriminate.
  - intros E. rewrite type_no_entry; [reflexivity|]. now rewrite E.
Qed.

Lemma invariant_run (n : nat) (w w' : World) :
  invariant texts w -> run texts n w = Normal w' -> invariant texts w'.
Proof.
  revert w. induction n as [|n IH]; intros w Hi; cbn [run].
  - now intros [= <-].
  - destruct (fire texts w) as [w1|e] eqn:F; [|discriminate].
    apply IH. exact (invariant_fire texts w w1 Hi F).
Qed.

(** X3. Erasing repairs the display.  Whatever the sink holds, one
    [erase] step taken within bounds with [charIndex > 0] leaves the
    prefix of length [charIndex] displayed, and the display stays a
    prefix of the current entry through every later firing. *)
Theorem erase_repairs_display (w : World) :
  in_bounds texts w -> is_Some (renderedText w) -> 0 < charIndex w ->
  exists w',
    erase texts w = Normal (tt, w') /\
    rendered_prefix texts w' /\
    forall n w'', run texts n w' = Normal w'' -> rendered_prefix texts w''.
Proof.
  intros Hb [r Hr] Hpos. pose proof Hb as [Hti (t & Ht & Hci)].
  unfold renderedText in Hr.
  assert (Hi : invariant texts
                 (set_timers (timers w ++ [timer CbErase erasingDelay])
                    (set_charIndex (charIndex w - 1)
                       (set_typedTextSpan
                          (Some (substring t 0 (charIndex w - 1))) w)))).
  { split.
    - split; [exact Hti|]. exists t. cbn. split; [exact Ht|lia].
    - exists t. split; [exact Ht|reflexivity]. }
  eexists. split; [apply (erase_erasing texts w t r Ht Hr Hpos)|].
  split; [exact (proj2 Hi)|].
  intros n w'' Hrun. exact (proj2 (invariant_run n _ w'' Hi Hrun)).
Qed.

(** *** Durations *)

Lemma run_idle (k : nat) (v : World) :
  timers v = [] -> run texts k v = Normal v.
Proof.
  intros Hv. induction k as [|k IH]; cbn; [reflexivity|].
  unfold fire. now rewrite Hv.
Qed.

Lemma scheduled_time_idle (k : nat) (v : World) :
  timers v = [] -> scheduled_time texts k v = 0.
Proof. intros Hv. destruct k; cbn; [reflexivity|now rewrite Hv]. Qed.

Lemma scheduled_time_add (a b : nat) (w w' : World) :
  run texts a w = Normal w' ->
  scheduled_time texts (a + b) w =
    scheduled_time texts a w + scheduled_time texts b w'.
Proof.
  revert w. induction a as [|a IH]; intros w Hrun.
  - cbn in Hrun. injection Hrun as <-. cbn. lia.
  - destruct (timers w) as [|tm rest] eqn:E.
    + rewrite (run_idle _ w E) in Hrun. injection Hrun as <-.
      now rewrite !(scheduled_time_idle _ w E).
    + cbn [run] in Hrun. cbn [Nat.add scheduled_time]. rewrite E.
      destruct (fire texts w) as [w1|e] eqn:F; [|discriminate].
      rewrite (IH w1 Hrun). lia.
Qed.

Lemma time_typing (k : nat) cur ti ci t d :
  index texts ti = Some t -> 0 <= ci -> ci + Z.of_nat k <= len t ->
  (0 < k)%nat ->
  scheduled_time texts k (displaying cur ti ci t (timer CbType d)) =
    d + typingDelay * (Z.of_nat k - 1).
Proof.
  intros Ht. revert ci d. induction k as [|k IH]; intros ci d H0 Hk Hpos;
    [lia|].
  cbn [scheduled_time]. cbn [timers displaying]. cbn [delay timer].
  rewrite fire_typing by (trivial; lia).
  destruct k as [|k]; [cbn; lia|].
  rewrite IH by lia. lia.
Qed.

Lemma time_erasing (k : nat) cur ti ci t d :
  index texts ti = Some t -> Z.of_nat k <= ci -> (0 < k)%nat ->
  scheduled_time texts k (displaying cur ti ci t (timer CbErase d)) =
    d + erasingDelay * (Z.of_nat k - 1).
Proof.
  intros Ht. revert ci d. induction k as [|k IH]; intros ci d Hk Hpos; [lia|].
  cbn [scheduled_time]. cbn [timers displaying]. cbn [delay timer].
  rewrite fire_erasing by (trivial; lia).
  destruct k as [|k]; [cbn; lia|].
  rewrite IH by lia. lia.
Qed.

Lemma run_typing_S (k : nat) cur ti ci t d :
  index texts ti = Some t -> 0 <= ci -> ci + Z.of_nat (S k) <= len t ->
  run texts (S k) (displaying cur ti ci t (timer CbType d)) =
    Normal (displaying cur ti (ci + Z.of_nat (S k)) t
              (timer CbType typingDelay)).
Proof.
  intros Ht. revert ci d. induction k as [|k IH]; intros ci d H0 Hk.
  - cbn [run]. rewrite fire_typing by (trivial; lia). reflexivity.
  - remember (S k) as m. cbn [run]. rewrite fire_typing by (trivial; lia).
    subst m. rewrite IH by lia. do 2 f_equal. lia.
Qed.

Lemma run_erasing_S (k : nat) cur ti ci t d :
  index texts ti = Some t -> Z.of_nat (S k) <= ci ->
  run texts (S k) (displaying cur ti ci t (timer CbErase d)) =
    Normal (displaying cur ti (ci - Z.of_nat (S k)) t
              (timer CbErase erasingDelay)).
Proof.
  intros Ht. revert ci d. induction k as [|k IH]; intros ci d Hk.
  - cbn [run]. rewrite fire_erasing by (trivial; lia). reflexivity.
  - remember (S k) as m. cbn [run]. rewrite fire_erasing by (trivial; lia).
    subst m. rewrite IH by lia. do 2 f_equal. lia.
Qed.

Lemma time_cycle cur ti t :
  index texts ti = Some t ->
  scheduled_time texts (cycle_steps t) (before_entry cur ti) =
    250 * len t + 3250.
Proof.
  intros Ht. unfold cycle_steps.
  rewrite (before_entry_displaying cur ti t).
  destruct (length t) as [|m] eqn:L.
  - assert (Hl : len t = 0) by (unfold len; lia).
    cbn [Nat.mul Nat.add scheduled_time timers displaying delay timer].
    pose proof (fire_typed texts cur ti t (typingDelay + 1100) Ht) as F1.
    rewrite Hl in F1. rewrite F1.
    cbn [timers displaying delay timer]. rewrite fire_erased.
    rewrite Hl. unfold typingDelay, newTextDelay. lia.
  - assert (Hl : len t = Z.of_nat (S m)) by (unfold len; lia).
    replace (2 * S m + 2)%nat with (S m + (1 + (S m + 1)))%nat by lia.
    rewrite (scheduled_time_add _ _ _ _
               (run_typing_S m cur ti 0 t _ Ht ltac:(lia) ltac:(lia))).
    rewrite time_typing by (trivial; lia).
    replace (0 + Z.of_nat (S m)) with (len t) by lia.
    assert (F1 : run texts 1 (displaying cur ti (len t) t
                                (timer CbType typingDelay)) =
                 Normal (displaying cur ti (len t) t
                           (timer CbErase newTextDelay))).
    { cbn [run]. now rewrite fire_typed. }
    rewrite (scheduled_time_add _ _ _ _ F1).
    assert (T1 : scheduled_time texts 1
                   (displaying cur ti (len t) t (timer CbType typingDelay))
                 = typingDelay).
    { cbn [scheduled_time timers displaying delay timer].
      rewrite fire_typed by exact Ht. lia. }
    rewrite T1.
    rewrite (scheduled_time_add _ _ _ _
               (run_erasing_S m cur ti (len t) t _ Ht ltac:(lia))).
    rewrite time_erasing by (trivial; lia).
    replace (len t - Z.of_nat (S m)) with 0 by lia.
    cbn [scheduled_time timers displaying delay timer].
    rewrite fire_erased. rewrite Hl.
    unfold typingDelay, newTextDelay, erasingDelay. lia.
Qed.

Lemma drop_entry (i : nat) (t : jsstring) (rest : list jsstring) :
  drop i texts = t :: rest ->
  index texts (Z.of_nat i) = Some t /\
  drop (S i) texts = rest /\
  next_textIndex texts (Z.of_nat i) =
    match rest with [] => 0 | _ => Z.of_nat (S i) end.
Proof.
  intros Hd.
  assert (Hl : texts !! i = Some t).
  { rewrite <- (Nat.add_0_r i), <- lookup_drop, Hd. reflexivity. }
  split; [|split].
  - unfold index. rewrite Nat2Z.id.
    destruct (0 <=? Z.of_nat i) eqn:E; [exact Hl|apply Z.leb_gt in E; lia].
  - replace (S i) with (i + 1)%nat by lia. rewrite <- drop_drop, Hd.
    reflexivity.
  - assert (Hlen : length texts = (i + S (length rest))%nat).
    { apply lookup_lt_Some in Hl. apply (f_equal length) in Hd.
      rewrite length_drop in Hd. cbn in Hd. lia. }
    unfold next_textIndex, len. rewrite Hlen. destruct rest as [|t' r'].
    + destruct (Z.of_nat (i + S (length [])) <=? Z.of_nat i + 1) eqn:E;
        [reflexivity|apply Z.leb_gt in E; cbn [length] in E; lia].
    + destruct (Z.of_nat (i + S (length (t' :: r'))) <=? Z.of_nat i + 1) eqn:E;
        [apply Z.leb_le in E; cbn [length] in E; lia|lia].
Qed.

Lemma time_rest cur (rest : list jsstring) (i : nat) :
  drop i texts = rest ->
  scheduled_time texts (steps_of rest) (before_entry cur (Z.of_nat i)) =
    250 * total_length rest + 3250 * len rest.
Proof.
  revert i. induction rest as [|t rest IH]; intros i Hd; [reflexivity|].
  destruct (drop_entry i t rest Hd) as (Hi & Hd' & Hn).
  cbn [steps_of foldr]. fold (cycle_steps t). fold (steps_of rest).
  rewrite (scheduled_time_add _ _ _ _ (run_cycle texts cur _ t Hi)).
  rewrite (time_cycle cur _ t Hi), Hn.
  assert (Hlen : len (t :: rest) = 1 + len rest) by (unfold len; cbn; lia).
  cbn [total_length foldr]. fold (total_length rest). rewrite Hlen.
  destruct rest as [|t' r'].
  - change (steps_of []) with O. cbn [scheduled_time foldr].
    change (len (@nil jsstring)) with 0.
    change (total_length []) with 0. lia.
  - rewrite (IH (S i) Hd'). lia.
Qed.

(** X4. How long the animation takes.  Counted from the pause before an
    entry to the pause before the next one, the timers of one entry add
    up to [250 * len + 3250] ms, where [len] is the length of the entry;
    one pass over the playlist takes 250 ms for each of its code units
    and 3250 ms for each of its entries. *)
Theorem cycle_duration (cur : option jsstring) (ti : Z) (t : jsstring) :
  index texts ti = Some t ->
  scheduled_time texts (cycle_steps t) (before_entry cur ti) =
    250 * len t + 3250 /\
  scheduled_time texts (period texts) (before_entry cur 0) =
    250 * total_length texts + 3250 * len texts.
Proof.
  intros Ht. split; [exact (time_cycle cur ti t Ht)|].
  exact (time_rest cur texts 0 eq_refl).
Qed.

End AnimationMore.

(** * The theme switch *)

Section ThemeFacts.

Import Theme.

Lemma light_not_dark : light <> dark.
Proof. discriminate. Qed.

Lemma toggle_theme (w : World) :
  currentTheme (toggle w) =
    if decide (currentTheme w = light) then dark else light.
Proof.
  destruct w as [st pd a1 a2 [ic|] cur]; reflexivity.
Qed.

Lemma toggle_in_sync (w : World) :
  in_sync (toggle w) /\ storedTheme (toggle w) = Some (currentTheme (toggle w)).
Proof.
  destruct w as [st pd a1 a2 [ic|] cur];
    unfold toggle, updateThemeIcon, in_sync; cbn -[light dark icon_for];
    repeat split; try discriminate.
  intros i Hi. congruence.
Qed.

Lemma construct_in_sync (w : World) : in_sync (construct w).
Proof.
  destruct w as [st pd a1 a2 [ic|] cur];
    unfold construct, updateThemeIcon, in_sync; cbn -[light dark icon_for];
    repeat split; try discriminate.
  intros i Hi. congruence.
Qed.

(** X5. Toggling the theme gives [dark] from [light] and [light] from
    anything else, so a second toggle undoes the first whenever the theme
    was one of the two; after one toggle the switch is in a state that two
    more toggles restore exactly, storage, attributes and icon
    included. *)
Theorem theme_toggle_twice (w : World) :
  (currentTheme w = light -> currentTheme (toggle w) = dark) /\
  (currentTheme w <> light -> currentTheme (toggle w) = light) /\
  toggle (toggle (toggle w)) = toggle w /\
  (currentTheme w = light \/ currentTheme w = dark ->
   currentTheme (toggle (toggle w)) = currentTheme w).
Proof.
  split; [|split; [|split]].
  - intros H. rewrite toggle_theme.
    destruct (decide (currentTheme w = light)); [reflexivity|contradiction].
  - intros H. rewrite toggle_theme.
    destruct (decide (currentTheme w = light)); [contradiction|reflexivity].
  - destruct w as [st pd a1 a2 [ic|] cur];
      unfold toggle, updateThemeIcon; cbn -[light dark icon_for];
      destruct (decide (cur = light)); reflexivity.
  - intros H. rewrite !toggle_theme.
    destruct H as [H|H]; rewrite H; reflexivity.
Qed.

(** X6. The choice survives a reload.  After a toggle, a manager
    constructed on a fresh document over the same storage has the theme
    the toggle chose, whatever the media query answers, and sets both
    attributes to it. *)
Theorem theme_survives_reload (w : World) (matches : bool)
  (attr1 attr2 icon : option jsstring) :
  let w' := construct (reload matches attr1 attr2 icon (toggle w)) in
  currentTheme w' = currentTheme (toggle w) /\
  dataTheme w' = Some (currentTheme (toggle w)) /\
  dataColorScheme w' = Some (currentTheme (toggle w)) /\
  storedTheme w' = storedTheme (toggle w).
Proof.
  cbv zeta.
  assert (Hs : storedTheme (toggle w) = Some (currentTheme (toggle w)))
    by apply toggle_in_sync.
  assert (Ht : initial_theme (Some (currentTheme (toggle w))) matches =
               currentTheme (toggle w)).
  { rewrite toggle_theme.
    destruct (decide (currentTheme w = light)); reflexivity. }
  revert Hs Ht. generalize (toggle w). intros v Hs Ht.
  destruct v as [st pd a1 a2 ic cur].
  cbn -[light dark icon_for initial_theme] in Hs, Ht. subst st.
  destruct icon; unfold construct, reload, updateThemeIcon;
    cbn -[light dark icon_for initial_theme]; rewrite Ht; repeat split.
Qed.

Lemma iter_toggle_in_sync (n : nat) (w : World) :
  in_sync w -> in_sync (Nat.iter n toggle w).
Proof.
  intros H. destruct n as [|n]; [exact H|]. cbn -[light dark icon_for]. apply toggle_in_sync.
Qed.

(** X7. Construction never writes to storage and takes the stored theme
    unless there is none or it is empty, in which case the media query
    decides.  From then on, through any number of toggles, both
    attributes of the root element carry the theme of the manager and
    the icon, if the page has one, is the moon exactly for [light]; once a
    toggle has happened the stored theme is the current one. *)
Theorem theme_stays_in_sync (w : World) (n : nat) :
  storedTheme (construct w) = storedTheme w /\
  currentTheme (construct w) =
    initial_theme (storedTheme w) (prefersDark w) /\
  in_sync (Nat.iter n toggle (construct w)) /\
  (forall i, themeIcon (Nat.iter n toggle (construct w)) = Some i ->
     (i = moon <-> currentTheme (Nat.iter n toggle (construct w)) = light)) /\
  ((0 < n)%nat ->
   storedTheme (Nat.iter n toggle (construct w)) =
     Some (currentTheme (Nat.iter n toggle (construct w)))).
Proof.
  pose proof (iter_toggle_in_sync n _ (construct_in_sync w)) as Hsync.
  split; [|split; [|split; [exact Hsync|split]]].
  - destruct w as [st pd a1 a2 [ic|] cur]; reflexivity.
  - destruct w as [st pd a1 a2 [ic|] cur]; reflexivity.
  - intros i Hi. destruct Hsync as (_ & _ & Hicon).
    rewrite (Hicon i Hi). unfold icon_for.
    destruct (decide (currentTheme (Nat.iter n toggle (construct w)) = light))
      as [E|E]; split; intros H; try reflexivity; try assumption; try discriminate.
    contradiction.
  - intros Hn. destruct n as [|n]; [lia|]. cbn -[light dark icon_for]. apply toggle_in_sync.
Qed.

End ThemeFacts.

(** * The mobile menu *)

Section MenuFacts.

Import Menu.

Lemma toggle_follows (w : World) :
  classes_follow w -> classes_follow (toggleMobileMenu w).
Proof.
  intros (H1 & H2 & H3 & H4). unfold classes_follow, toggleMobileMenu. cbn.
  repeat split.
  - intros a Ha. destruct (navToggle w) as [b|]; [|discriminate].
    injection Ha as <-. now rewrite (H1 b eq_refl).
  - intros a Ha. destruct (navMenu w) as [b|]; [|discriminate].
    injection Ha as <-. now rewrite (H2 b eq_refl).
  - intros a Ha. destruct (navMenuContainer w) as [b|]; [|discriminate].
    injection Ha as <-. now rewrite (H3 b eq_refl).
Qed.

Lemma click_follows (c : Click) (w : World) :
  classes_follow w -> classes_follow (click c w).
Proof.
  intros H. unfold click, on_document_click.
  assert (H1 : classes_follow
                 match target c with
                 | OnToggle => on_toggle_click w
                 | OnLink => on_link_click w
                 | Elsewhere => w
                 end).
  { destruct (target c); [| |exact H].
    - unfold on_toggle_click. destruct (navToggle w); [|exact H].
      now apply toggle_follows.
    - unfold on_link_click. destruct (isMenuOpen w); [|exact H].
      now apply toggle_follows. }
  match goal with |- classes_follow (if ?b then _ else _) => destruct b end;
    [now apply toggle_follows|exact H1].
Qed.

(** X8. The classes follow the flag.  If every element of the menu the
    page has carries [active] exactly when [isMenuOpen] holds, and the
    body its class likewise -- as on a page loaded with the menu closed
    -- then this is still so after any sequence of clicks. *)
Theorem menu_classes_follow (cs : list Click) (w : World) :
  classes_follow w -> classes_follow (clicks cs w).
Proof.
  unfold clicks. revert w. induction cs as [|c cs IH]; intros w H;
    [exact H|].
  cbn [foldl]. apply IH. now apply click_follows.
Qed.

(** X9. A click on a navigation link, and a click that lands outside
    [#nav] or on a page without [#nav], leave the menu closed, whatever
    it was before; in particular the toggle cannot open the menu unless
    it lies within [#nav].  A click on a toggle within [#nav] flips the
    menu. *)
Theorem menu_after_click (c : Click) (w : World) :
  (target c = OnLink \/ nav w && within_nav c = false ->
   isMenuOpen (click c w) = false) /\
  (target c = OnToggle -> is_Some (navToggle w) ->
   nav w && within_nav c = true ->
   isMenuOpen (click c w) = negb (isMenuOpen w)).
Proof.
  destruct w as [o n t m mc b], c as [tg inside]. unfold click. cbn. split.
  - intros [->|H].
    + unfold on_link_click, on_document_click. cbn.
      destruct o; cbn; [reflexivity|].
      reflexivity.
    + unfold on_document_click, on_toggle_click, on_link_click.
      destruct tg, o, t; cbn; rewrite ?H; cbn; reflexivity.
  - intros -> [a Ha] H. cbn in Ha. subst t.
    unfold on_document_click, on_toggle_click. cbn. rewrite H.
    destruct o; reflexivity.
Qed.

End MenuFacts.

(** * Rate limiting *)

Section RateLimitFacts.

Variable A : Type.

Lemma clearTimeout_only (i : nat) (a : A) (id : option nat) :
  id = Some i -> clearTimeout A id [(i, a)] = [].
Proof. intros ->. cbn. now rewrite Nat.eqb_refl. Qed.

Lemma clearTimeout_none (id : option nat) : clearTimeout A id [] = [].
Proof. destruct id; reflexivity. Qed.

(** The wrapper of [src/app.js], from any state with nothing pending and
    from any state with its one timer pending. *)
Lemma debounce_fold (es : list (Event A)) :
  (forall w, d_pending A w = [] ->
     d_calls A (foldl (debounce_step A) w es) = d_calls A w ++ trailing A es /\
     (length (d_pending A (foldl (debounce_step A) w es)) <= 1)%nat) /\
  (forall w i a, d_pending A w = [(i, a)] -> timeoutId A w = Some i ->
     d_calls A (foldl (debounce_step A) w es) =
       d_calls A w ++ trailing A (Call a :: es) /\
     (length (d_pending A (foldl (debounce_step A) w es)) <= 1)%nat).
Proof.
  induction es as [|e es [IHi IHa]].
  - split.
    + intros w Hp. cbn. rewrite Hp, app_nil_r. cbn. split; [reflexivity|lia].
    + intros w i a Hp Ht. cbn. rewrite Hp, app_nil_r. cbn.
      split; [reflexivity|lia].
  - split.
    + intros w Hp. destruct e as [b|]; cbn [foldl debounce_step].
      * destruct (IHa (debounce_call A b w) (d_next A w) b) as [H1 H2].
        { unfold debounce_call. cbn. now rewrite Hp, clearTimeout_none. }
        { reflexivity. }
        split; [exact H1|exact H2].
      * unfold debounce_fire. rewrite Hp.
        destruct (IHi w Hp) as [H1 H2]. split; [exact H1|exact H2].
    + intros w i a Hp Ht. destruct e as [b|]; cbn [foldl debounce_step].
      * destruct (IHa (debounce_call A b w) (d_next A w) b) as [H1 H2].
        { unfold debounce_call. cbn.
          now rewrite Hp, (clearTimeout_only i a _ Ht). }
        { reflexivity. }
        split; [|exact H2]. rewrite H1. reflexivity.
      * unfold debounce_fire. rewrite Hp.
        match goal with |- context [foldl _ ?v es] =>
          destruct (IHi v eq_refl) as [H1 H2] end.
        split; [|exact H2]. rewrite H1. cbn. now rewrite <- app_assoc.
Qed.

(** [Utils.debounce], from any state with nothing pending and from any
    state with its one timer pending. *)
Lemma udebounce_fold (immediate : bool) (es : list (Event A)) :
  (forall w, u_pending A w = [] -> timeout A w = None ->
     u_calls A (foldl (udebounce_step A immediate) w es) =
       u_calls A w ++
       (if immediate then leading_from A false es else trailing A es)) /\
  (forall w i a, u_pending A w = [(i, a)] -> timeout A w = Some i ->
     u_calls A (foldl (udebounce_step A immediate) w es) =
       u_calls A w ++
       (if immediate then leading_from A true es
        else trailing A (Call a :: es))).
Proof.
  induction es as [|e es [IHi IHa]].
  - split.
    + intros w Hp Ht. cbn. destruct immediate; now rewrite app_nil_r.
    + intros w i a Hp Ht. cbn. destruct immediate; now rewrite app_nil_r.
  - split.
    + intros w Hp Ht. destruct e as [b|]; cbn [foldl udebounce_step].
      * rewrite (IHa (udebounce_call A immediate b w) (u_next A w) b).
        -- unfold udebounce_call. cbn. rewrite Ht.
           destruct immediate; cbn; [now rewrite <- app_assoc|reflexivity].
        -- unfold udebounce_call. cbn. now rewrite Hp, clearTimeout_none.
        -- reflexivity.
      * unfold udebounce_fire. rewrite Hp. rewrite (IHi w Hp Ht).
        destruct immediate; reflexivity.
    + intros w i a Hp Ht. destruct e as [b|]; cbn [foldl udebounce_step].
      * rewrite (IHa (udebounce_call A immediate b w) (u_next A w) b).
        -- unfold udebounce_call. cbn. rewrite Ht.
           destruct immediate; cbn; reflexivity.
        -- unfold udebounce_call. cbn.
           now rewrite Hp, (clearTimeout_only i a _ Ht).
        -- reflexivity.
      * unfold udebounce_fire. rewrite Hp.
        match goal with |- context [foldl _ ?v es] =>
          rewrite (IHi v eq_refl eq_refl) end.
        destruct immediate; cbn; [reflexivity|now rewrite <- app_assoc].
Qed.

Lemma throttle_fold (es : list (Event A)) :
  (forall w, inThrottle A w = false -> t_pending A w = O ->
     let w' := foldl (throttle_step A) w es in
     t_calls A w' = t_calls A w ++ leading_from A false es /\
     (t_pending A w' <= 1)%nat /\
     (inThrottle A w' = true <-> t_pending A w' = 1%nat)) /\
  (forall w, inThrottle A w = true -> t_pending A w = 1%nat ->
     let w' := foldl (throttle_step A) w es in
     t_calls A w' = t_calls A w ++ leading_from A true es /\
     (t_pending A w' <= 1)%nat /\
     (inThrottle A w' = true <-> t_pending A w' = 1%nat)).
Proof.
  induction es as [|e es [IHi IHb]].
  - split; intros w Hi Hp; cbn; rewrite app_nil_r, Hi, Hp;
      (split; [reflexivity|split; [lia|split; congruence]]).
  - split; intros w Hi Hp; destruct e as [b|];
      cbn [foldl throttle_step leading_from].
    + unfold throttle_call. rewrite Hi, Hp.
      match goal with |- context [foldl _ ?v es] =>
        destruct (IHb v eq_refl eq_refl) as (H1 & H2 & H3) end.
      split; [|split; [exact H2|exact H3]].
      rewrite H1. cbn. now rewrite <- app_assoc.
    + unfold throttle_fire. rewrite Hp. exact (IHi w Hi Hp).
    + unfold throttle_call. rewrite Hi. exact (IHb w Hi Hp).
    + unfold throttle_fire. rewrite Hp.
      match goal with |- context [foldl _ ?v es] =>
        destruct (IHi v eq_refl eq_refl) as (H1 & H2 & H3) end.
      split; [exact H1|split; [exact H2|exact H3]].
Qed.

(** X10. [debounce] of [src/app.js] runs the wrapped function exactly for
    the calls that are followed by a firing of the timer before the next
    call, with the arguments of that call and in that order; and it never
    has more than one timer pending. *)
Theorem debounce_trailing_edge (es : list (Event A)) :
  d_calls A (debounce_run A es) = trailing A es /\
  (length (d_pending A (debounce_run A es)) <= 1)%nat.
Proof.
  unfold debounce_run.
  destruct (proj1 (debounce_fold es) (debounce_new A) eq_refl) as [H1 H2].
  split; [exact H1|exact H2].
Qed.

(** X11. [Utils.debounce] of the fuller script, without [immediate],
    runs the wrapped function on the same calls as [debounce] of
    [src/app.js], whatever the calls and firings are. *)
Theorem udebounce_agrees (es : list (Event A)) :
  u_calls A (udebounce_run A false es) = d_calls A (debounce_run A es).
Proof.
  unfold udebounce_run, debounce_run.
  rewrite (proj1 (udebounce_fold false es) (udebounce_new A) eq_refl eq_refl).
  now rewrite (proj1 (proj1 (debounce_fold es) (debounce_new A) eq_refl)).
Qed.

(** X12. With [immediate], [Utils.debounce] runs the wrapped function
    exactly for the calls made while none of its timers is pending: the
    first call, and the first call after each firing. *)
Theorem udebounce_leading_edge (es : list (Event A)) :
  u_calls A (udebounce_run A true es) = leading A es.
Proof.
  unfold udebounce_run, leading.
  exact (proj1 (udebounce_fold true es) (udebounce_new A) eq_refl eq_refl).
Qed.

(** X13. [Utils.throttle] runs the wrapped function exactly for the
    calls made while it is not throttled -- the first one, and the first
    one after each firing -- and drops the others; it has at most one
    timer pending, and it is throttled exactly while that timer is
    pending. *)
Theorem throttle_leading_edge (es : list (Event A)) :
  t_calls A (throttle_run A es) = leading A es /\
  (t_pending A (throttle_run A es) <= 1)%nat /\
  (inThrottle A (throttle_run A es) = true <->
   t_pending A (throttle_run A es) = 1%nat).
Proof.
  unfold throttle_run, leading.
  exact (proj1 (throttle_fold es) (throttle_new A) eq_refl eq_refl).
Qed.

End RateLimitFacts.

(** * The contact form, beyond the submission *)

Section FormFacts.

Import Form.

Lemma trimStart_white (p x : jsstring) :
  Forall white p -> trimStart (p ++ x) = trimStart x.
Proof.
  induction 1 as [|c p Hc _ IH]; [reflexivity|].
  cbn. unfold white in Hc. now rewrite Hc.
Qed.

Lemma trimStart_app_white (v q : jsstring) :
  Forall white q ->
  exists q', Forall white q' /\ trimStart (v ++ q) = trimStart v ++ q'.
Proof.
  intros Hq. induction v as [|c v IH].
  - exists []. split; [constructor|]. cbn.
    rewrite <- (app_nil_r q). now rewrite trimStart_white.
  - cbn. destruct (isWhiteSpace c); [exact IH|].
    exists q. split; [exact Hq|reflexivity].
Qed.

Lemma trimEnd_white (x q : jsstring) :
  Forall white q -> trimEnd (x ++ q) = trimEnd x.
Proof.
  intros Hq. unfold trimEnd. rewrite reverse_app, trimStart_white;
    [reflexivity|]. now apply Forall_reverse.
Qed.

Lemma trim_padding (p v q : jsstring) :
  Forall white p -> Forall white q -> trim (p ++ v ++ q) = trim v.
Proof.
  intros Hp Hq. unfold trim. rewrite trimStart_white by exact Hp.
  destruct (trimStart_app_white v q Hq) as (q' & Hq' & ->).
  now apply trimEnd_white.
Qed.

(** X14. White space around what is typed never changes the verdict on
    a field: padding the value on either side with white space or line
    terminators gives the same verdict and the same message. *)
Theorem validation_ignores_padding (f : Field) (p q : jsstring) :
  Forall (fun c => isWhiteSpace c = true) p ->
  Forall (fun c => isWhiteSpace c = true) q ->
  fst (validateField (with_value (p ++ value f ++ q) f)) =
    fst (validateField f) /\
  fieldError (snd (validateField (with_value (p ++ value f ++ q) f))) =
    fieldError (snd (validateField f)).
Proof.
  intros Hp Hq. unfold validateField. cbn [with_value name value].
  rewrite (trim_padding p (value f) q Hp Hq).
  destruct (rule_for (name f)) as [r|]; [|split; reflexivity].
  destruct (too_short r (trim (value f))); [split; reflexivity|].
  destruct (mismatch r (trim (value f))); split; reflexivity.
Qed.

Lemma at_signs_app (x y : jsstring) :
  at_signs (x ++ y) = (at_signs x + at_signs y)%nat.
Proof. unfold at_signs. now rewrite List.filter_app, length_app. Qed.

Lemma plain_no_at (s : jsstring) :
  Forall (fun c => not_space_or_at c = true) s ->
  at_signs s = O /\
  Forall (fun c => isWhiteSpace c = false) s.
Proof.
  induction 1 as [|c s Hc _ [IH1 IH2]]; [split; constructor|].
  unfold not_space_or_at in Hc. apply negb_true_iff, orb_false_iff in Hc.
  destruct Hc as [Hw Ha]. split.
  - change (c :: s) with ([c] ++ s). rewrite at_signs_app, IH1.
    unfold at_signs. cbn [List.filter]. rewrite N.eqb_sym, Ha. reflexivity.
  - constructor; assumption.
Qed.

(** X15. What an accepted address looks like.  If the field named
    [email] passes, its trimmed value contains exactly one [@], contains
    no white space at all, and is at least five code units long. *)
Theorem accepted_email (f : Field) :
  name f = lit "email" ->
  fst (validateField f) = true ->
  at_signs (trim (value f)) = 1%nat /\
  Forall (fun c => isWhiteSpace c = false) (trim (value f)) /\
  5 <= len (trim (value f)).
Proof.
  intros Hn Hv. apply validateField_passes in Hv.
  destruct Hv as (_ & He & _). specialize (He Hn).
  destruct He as (a & b & c & -> & [Ha Pa] & [Hb Pb] & [Hc Pc]).
  destruct (plain_no_at a Pa) as [Fa Wa], (plain_no_at b Pb) as [Fb Wb],
    (plain_no_at c Pc) as [Fc Wc].
  split; [|split].
  - rewrite !at_signs_app, Fa, Fb, Fc. reflexivity.
  - rewrite !Forall_app. repeat split; try assumption;
      constructor; (reflexivity || constructor).
  - unfold len. rewrite !length_app. cbn [length].
    destruct a; [contradiction|]. destruct b; [contradiction|].
    destruct c; [contradiction|]. cbn [length]. lia.
Qed.




End FormFacts.

(** * The life of the form *)

Section FormLife.

Import Form.

Lemma hideNotification_spec (id : nat) (w : World) :
  hideNotification id w =
    Normal (tt, set_tasks (tasks (on_banner id (fun n => Some (hidden n)) w)
                             ++ [task (Timeout 300) (RemoveBanner id)])
                  (on_banner id (fun n => Some (hidden n)) w)).
Proof. reflexivity. Qed.

Lemma on_banner_tasks id g (w : World) : tasks (on_banner id g w) = tasks w.
Proof.
  unfold on_banner. destruct (notification w) as [n|]; [|reflexivity].
  destruct (decide (nid n = id)); reflexivity.
Qed.

Lemma on_banner_notification id g (w : World) :
  notification (on_banner id g w) =
    match notification w with
    | Some n => if decide (nid n = id) then g n else Some n
    | None => None
    end.
Proof.
  unfold on_banner. destruct (notification w) as [n|] eqn:E; [|exact E].
  destruct (decide (nid n = id)); [reflexivity|exact E].
Qed.

Lemma dismissal_show (msg type : jsstring) (w w' : World) :
  showNotification msg type w = Normal (tt, w') -> dismissal_pending w'.
Proof.
  rewrite showNotification_spec. intros [= <-] n. cbn [notification tasks].
  intros [= <-]. cbn [hiding fresh_banner nid]. apply in_or_app. right.
  now left.
Qed.

Lemma dismissal_more_tasks (w : World) (l : list Task) :
  dismissal_pending w -> dismissal_pending (set_tasks (tasks w ++ l) w).
Proof.
  intros H n Hn. specialize (H n Hn). cbn [tasks set_tasks].
  destruct (hiding n); apply in_or_app; now left.
Qed.

Lemma dismissal_hide (id : nat) (l : list Task) (w : World) :
  (forall n, notification w = Some n ->
     if hiding n
     then In (task (Timeout 300) (RemoveBanner (nid n))) l
     else nid n = id \/ In (task (Timeout 5000) (HideBanner (nid n))) l) ->
  tasks w = l ->
  forall w', hideNotification id w = Normal (tt, w') -> dismissal_pending w'.
Proof.
  intros H Hl w'. rewrite hideNotification_spec. intros Hw.
  injection Hw as <-. intros n.
  cbn [notification set_tasks tasks].
  rewrite on_banner_tasks, on_banner_notification, Hl.
  destruct (notification w) as [m|] eqn:Hm; [|discriminate].
  specialize (H m eq_refl).
  destruct (decide (nid m = id)) as [E|E].
  - intros [= <-]. cbn [hiding hidden nid]. apply in_or_app. right.
    left. now rewrite E.
  - intros [= <-]. destruct (hiding m).
    + apply in_or_app. now left.
    + destruct H as [H|H]; [contradiction|]. apply in_or_app. now left.
Qed.

Lemma in_remove_middle (x t : Task) (pre post : list Task) :
  In x (pre ++ t :: post) -> x <> t -> In x (pre ++ post).
Proof.
  intros H Hne. apply in_app_or in H as [H|[H|H]].
  - apply in_or_app. now left.
  - congruence.
  - apply in_or_app. now right.
Qed.

Lemma dismissal_step (w w' : World) :
  dismissal_pending w -> FormStep w w' -> dismissal_pending w'.
Proof.
  intros Hd Hs. destruct Hs as [w w' H|w pre t post w' Ht H|w n w' Hn H|w fs].
  - (* submission *)
    unfold handleFormSubmission, bind, gets, modify in H.
    cbv beta iota in H. cbn [fields set_fields] in H.
    destruct (negb (forallb fst (map validateField (fields w)))).
    + exact (dismissal_show _ _ _ _ H).
    + change (submitButton (set_fields ?x w)) with (submitButton w) in H.
      destruct (submitButton w) as [b|]; [|discriminate].
      cbn in H. unfold schedule, modify in H. cbn in H.
      injection H as <-. intros n Hn. cbn in Hn. specialize (Hd n Hn).
      cbn [tasks]. destruct (hiding n); apply in_or_app; now left.
  - (* a pending task runs *)
    destruct t as [wh j]. cbn [job] in H.
    destruct j as [o|id|id|id]; cbn [call] in H.
    + (* the simulated submission completes *)
      unfold bind at 1 in H. rewrite showNotification_spec in H.
      unfold bind, modify, gets, member, ret, throw in H. cbn in H.
      destruct (submitButton w) as [b|]; [|discriminate].
      injection H as <-. intros n. cbn [notification tasks].
      intros [= <-]. cbn [hiding fresh_banner nid]. apply in_or_app.
      right. now left.
    + (* the banner slides in *)
      unfold modify in H. injection H as <-. intros n.
      rewrite on_banner_tasks, on_banner_notification.
      cbn [tasks notification set_tasks].
      destruct (notification w) as [m|] eqn:Hm; [|discriminate].
      specialize (Hd m Hm). rewrite Ht in Hd.
      destruct (decide (nid m = id)).
      * intros [= <-]. cbn [hiding nid].
        destruct (hiding m);
          (eapply in_remove_middle; [exact Hd|discriminate]).
      * intros [= <-].
        destruct (hiding m);
          (eapply in_remove_middle; [exact Hd|discriminate]).
    + (* the banner's five seconds are over *)
      apply (dismissal_hide id (pre ++ post) (set_tasks (pre ++ post) w));
        [|reflexivity|exact H].
      intros n Hn. cbn in Hn. specialize (Hd n Hn). rewrite Ht in Hd.
      destruct (hiding n).
      * eapply in_remove_middle; [exact Hd|discriminate].
      * destruct (decide (nid n = id)) as [E|E]; [now left|right].
        eapply in_remove_middle; [exact Hd|]. intros [= _ E']. congruence.
    + (* the banner is removed *)
      unfold modify in H. injection H as <-. intros n.
      rewrite on_banner_tasks, on_banner_notification.
      cbn [tasks notification set_tasks].
      destruct (notification w) as [m|] eqn:Hm; [|discriminate].
      specialize (Hd m Hm). rewrite Ht in Hd.
      destruct (decide (nid m = id)) as [E|E]; [discriminate|].
      intros [= <-].
      destruct (hiding m);
        (eapply in_remove_middle; [exact Hd|]); [|discriminate].
      intros [= E']. congruence.
  - (* the close button *)
    apply (dismissal_hide (nid n) (tasks w) w); [|reflexivity|exact H].
    intros m Hm. specialize (Hd m Hm).
    destruct (hiding m); [exact Hd|now right].
  - (* the controls change *)
    exact Hd.
Qed.

(** X19. No banner is left behind.  In every state the form reaches from
    a freshly loaded page -- through submissions, pending timers firing
    in any order, clicks on the close button and edits -- a banner that
    is in the page has its hiding scheduled after 5000 ms, or is already
    hiding and has its removal scheduled after 300 ms. *)
Theorem banner_dismissal_scheduled (w : World) :
  FormReachable w -> dismissal_pending w.
Proof.
  induction 1 as [w [Hn _]|w w' _ IH Hs].
  - intros n Hn'. congruence.
  - exact (dismissal_step w w' IH Hs).
Qed.


End FormLife.

(** * The further properties at sample inputs *)

Section MoreSamples.

Lemma hi_smeared_in_bounds : AppJs.in_bounds hi_texts hi_smeared.
Proof.
  split; [unfold len; cbn; lia|]. exists (lit "Hi").
  split; [reflexivity|unfold len; cbn; lia].
Qed.

Lemma animation_never_stops_witness :
  (hi_texts <> [] /\ AppJs.typedTextSpan prefilled_page = Some (lit "X")) /\
  exists w1,
    exec (AppJs.start hi_texts) (AppJs.init prefilled_page) = Normal w1 /\
    forall n, exists w' tm,
      AppJs.run hi_texts n w1 = Normal w' /\ AppJs.in_bounds hi_texts w' /\
      AppJs.timers w' = [tm].
Proof.
  split; [split; [discriminate|reflexivity]|].
  apply (animation_never_stops hi_texts prefilled_page (lit "X"));
    [discriminate|reflexivity].
Defined.

Lemma start_fails_iff_empty_witness :
  AppJs.typedTextSpan hi_page = Some [] /\
  (exec (AppJs.start []) (AppJs.init hi_page) = Throw TypeError <->
   @nil jsstring = []).
Proof.
  split; [reflexivity|].
  apply (start_fails_iff_empty [] hi_page []). reflexivity.
Defined.

Lemma erase_repairs_display_witness :
  (AppJs.in_bounds hi_texts hi_smeared /\
   is_Some (AppJs.renderedText hi_smeared) /\
   0 < AppJs.charIndex hi_smeared) /\
  exists w',
    AppJs.erase hi_texts hi_smeared = Normal (tt, w') /\
    AppJs.rendered_prefix hi_texts w' /\
    forall n w'', AppJs.run hi_texts n w' = Normal w'' ->
                  AppJs.rendered_prefix hi_texts w''.
Proof.
  split.
  - split; [exact hi_smeared_in_bounds|].
    split; [eexists; reflexivity|cbn; lia].
  - apply (erase_repairs_display hi_texts hi_smeared);
      [exact hi_smeared_in_bounds|eexists; reflexivity|cbn; lia].
Defined.

Lemma cycle_duration_witness :
  index site_texts 0 = Some (lit "Hi, I'm Jackson Kovarik") /\
  scheduled_time site_texts
    (AppJs.cycle_steps (lit "Hi, I'm Jackson Kovarik"))
    (AppJs.before_entry None 0) =
    250 * len (lit "Hi, I'm Jackson Kovarik") + 3250 /\
  scheduled_time site_texts (AppJs.period site_texts)
    (AppJs.before_entry None 0) =
    250 * total_length site_texts + 3250 * len site_texts.
Proof.
  split; [reflexivity|].
  apply (cycle_duration site_texts None 0 (lit "Hi, I'm Jackson Kovarik")).
  reflexivity.
Defined.

Lemma theme_toggle_twice_witness :
  (Theme.currentTheme light_page = Theme.light /\
   (Theme.currentTheme light_page = Theme.light \/
    Theme.currentTheme light_page = Theme.dark)) /\
  Theme.currentTheme (Theme.toggle light_page) = Theme.dark /\
  Theme.currentTheme (Theme.toggle (Theme.toggle light_page)) =
    Theme.currentTheme light_page.
Proof.
  split; [split; [reflexivity|left; reflexivity]|].
  split.
  - exact (proj1 (theme_toggle_twice light_page) eq_refl).
  - exact (proj2 (proj2 (proj2 (theme_toggle_twice light_page)))
             (or_introl eq_refl)).
Defined.

Lemma theme_stays_in_sync_witness :
  (0 < 1)%nat /\
  Theme.storedTheme (Nat.iter 1 Theme.toggle (Theme.construct light_page)) =
    Some (Theme.currentTheme
            (Nat.iter 1 Theme.toggle (Theme.construct light_page))).
Proof.
  split; [lia|].
  exact (proj2 (proj2 (proj2 (proj2 (theme_stays_in_sync light_page 1))))
           ltac:(lia)).
Defined.

Lemma menu_closed_follows : Menu.classes_follow menu_closed.
Proof. repeat split; intros a [= <-]; reflexivity. Qed.

Lemma menu_classes_follow_witness :
  Menu.classes_follow menu_closed /\
  Menu.classes_follow (Menu.clicks [toggle_click; link_click] menu_closed).
Proof.
  split; [exact menu_closed_follows|].
  apply (menu_classes_follow [toggle_click; link_click] menu_closed).
  exact menu_closed_follows.
Defined.

Lemma menu_after_click_witness :
  (Menu.target link_click = Menu.OnLink \/
   Menu.nav menu_open && Menu.within_nav link_click = false) /\
  Menu.isMenuOpen (Menu.click link_click menu_open) = false.
Proof.
  split; [left; reflexivity|].
  exact (proj1 (menu_after_click link_click menu_open) (or_introl eq_refl)).
Defined.

Lemma validation_ignores_padding_witness :
  (Forall (fun c => isWhiteSpace c = true) (lit " ") /\
   Forall (fun c => isWhiteSpace c = true) (lit "  ")) /\
  fst (Form.validateField
         (with_value (lit " " ++ Form.value (sample_field "name" "Al")
                        ++ lit "  ")
            (sample_field "name" "Al"))) =
    fst (Form.validateField (sample_field "name" "Al")) /\
  Form.fieldError
    (snd (Form.validateField
            (with_value (lit " " ++ Form.value (sample_field "name" "Al")
                           ++ lit "  ")
               (sample_field "name" "Al")))) =
    Form.fieldError (snd (Form.validateField (sample_field "name" "Al"))).
Proof.
  split; [split; repeat constructor|].
  apply (validation_ignores_padding (sample_field "name" "Al")
           (lit " ") (lit "  ")); repeat constructor.
Defined.

Lemma accepted_email_witness :
  (Form.name (sample_field "email" " ada@example.org ") = lit "email" /\
   fst (Form.validateField (sample_field "email" " ada@example.org ")) =
     true) /\
  at_signs (trim (Form.value (sample_field "email" " ada@example.org "))) =
    1%nat /\
  Forall (fun c => isWhiteSpace c = false)
    (trim (Form.value (sample_field "email" " ada@example.org "))) /\
  5 <= len (trim (Form.value (sample_field "email" " ada@example.org "))).
Proof.
  split; [split; [reflexivity|vm_compute; reflexivity]|].
  apply (accepted_email (sample_field "email" " ada@example.org "));
    [reflexivity|vm_compute; reflexivity].
Defined.

Lemma rejected_form_result :
  Form.handleFormSubmission short_form = Normal (tt, rejected_form).
Proof. vm_compute. reflexivity. Qed.

Lemma sent_form_result :
  Form.handleFormSubmission filled_form = Normal (tt, sent_form).
Proof. vm_compute. reflexivity. Qed.


Lemma rejected_form_reachable : FormReachable rejected_form.
Proof.
  apply (form_next short_form).
  - apply form_start. split; reflexivity.
  - apply step_submit. exact rejected_form_result.
Qed.

Lemma banner_dismissal_scheduled_witness :
  FormReachable rejected_form /\ dismissal_pending rejected_form.
Proof.
  split; [exact rejected_form_reachable|].
  apply (banner_dismissal_scheduled rejected_form).
  exact rejected_form_reachable.
Defined.

(** The rejected form does show a banner, the error banner. *)
Example rejected_form_banner : Form.banner_shown (lit "error") rejected_form.
Proof. eexists. split; vm_compute; reflexivity. Qed.

End MoreSamples.

(** * Where the text already in the sink, or a missing button, shows *)

Section Limits.

Import AppJs.

Lemma hi_smeared_reachable : Reachable hi_texts prefilled_page hi_smeared.
Proof.
  apply (reach_fire hi_texts prefilled_page prefilled_typed).
  - apply (reach_fire hi_texts prefilled_page prefilled_one).
    + apply reach_start. reflexivity.
    + reflexivity.
  - reflexivity.
Qed.

(** On a page whose sink holds "X", the world the first call of [type]
    leaves displays "XH", which is not a prefix of "Hi". *)
Lemma prefilled_display_not_prefix :
  typedTextSpan prefilled_page = Some (lit "X") /\
  Reachable hi_texts prefilled_page prefilled_one /\
  ~ rendered_prefix hi_texts prefilled_one.
Proof.
  split; [reflexivity|]. split; [apply reach_start; reflexivity|].
  intros (t & Ht & Hp). vm_compute in Ht. injection Ht as <-.
  vm_compute in Hp. discriminate.
Qed.

(** On that page the animation reaches "XHi" with two code units typed;
    [erase] then displays "H", the entry cut to one code unit, and not
    "X", the displayed text cut to one code unit. *)
Lemma erase_not_truncation :
  Reachable hi_texts prefilled_page hi_smeared /\
  0 < charIndex hi_smeared /\
  renderedText hi_smeared = Some (lit "XHi") /\
  exists w',
    erase hi_texts hi_smeared = Normal (tt, w') /\
    renderedText w' = Some (lit "H") /\
    renderedText w' <>
      Some (take (Z.to_nat (charIndex hi_smeared - 1)) (lit "XHi")).
Proof.
  split; [exact hi_smeared_reachable|]. split; [cbn; lia|].
  split; [reflexivity|]. eexists. split; [reflexivity|].
  split; [reflexivity|]. vm_compute. discriminate.
Qed.

(** On that page the display does not repeat: one pass after "XH" the
    display is "H". *)
Lemma display_not_periodic_prefilled :
  typedTextSpan prefilled_page = Some (lit "X") /\
  Reachable hi_texts prefilled_page prefilled_one /\
  map_completion renderedText
    (run hi_texts (0 + period hi_texts) prefilled_one) <>
  map_completion renderedText (run hi_texts 0 prefilled_one).
Proof.
  split; [reflexivity|]. split; [apply reach_start; reflexivity|].
  vm_compute. discriminate.
Qed.



End Limits.
